(** * icequery: the stats-record parser, the ingestion loop, the aggregator
      and the table renderer, embedded from the C++ sources.

    The sources hold several revisions of the one program.  Unless a
    definition says otherwise it is embedded from version 20140510
    (src/unnamed/part_000); [poll_loop_0705] is the poll loop of version
    20140705 (src/unnamed/part_005) and [poll_once] the single poll of an
    earlier revision (src/unnamed/part_001).  [NodeInfo::create] and the
    handling of one message are the same text in these revisions.

    Conventions of the embedding:
    - [std::string] is a [list ascii] (a sequence of 8-bit chars);
    - [uint32_t] values are [N], with the wrap-around modulo [2^32] written
      out wherever the code computes or converts;
    - the [int] returned by [std::stoi] is a [Z];
    - a C++ call either returns, throws, or fails to terminate: [Run];
    - a [std::vector] indexed by position is a [list] with stdpp's lookup
      and insert;
    - the scheduler, [poll()] and ICU are outside the program: their
      answers are inputs ([PollResult], [Msg], [TextShaping]). *)

From Stdlib Require Import ZArith NArith Ascii String List Lia.
From Stdlib Require Import DecimalString DecimalN DecimalFacts.
From stdpp Require Import base decidable option list numbers strings sorting.

Local Open Scope N_scope.
Local Open Scope nat_scope.

(** ** Characters and strings *)

Definition lit (s : string) : list ascii := list_ascii_of_string s.
Arguments lit : simpl never.

Definition LF : ascii := "010"%char.
Definition colon : ascii := ":"%char.
Definition space : ascii := " "%char.

(** [tolower] of <cctype>, "C" locale: only 'A'..'Z' are mapped. *)
Definition tolower (c : ascii) : ascii :=
  let n := N_of_ascii c in
  if ((65 <=? n) && (n <=? 90))%N then ascii_of_N (n + 32) else c.

(** [toLower]: [std::transform( ..., tolower )] over the whole string. *)
Definition toLower (str : list ascii) : list ascii := map tolower str.

(** Offset of the first occurrence of [c] in [s]. *)
Fixpoint index_of (c : ascii) (s : list ascii) : option nat :=
  match s with
  | [] => None
  | x :: s' => if Ascii.eqb x c then Some 0 else S <$> index_of c s'
  end.

(** [std::string::find( c, pos )]: the first position [>= pos] holding [c];
    [None] is [std::string::npos]. *)
Definition find (s : list ascii) (c : ascii) (pos : nat) : option nat :=
  (λ i, pos + i) <$> index_of c (drop pos s).

(** [std::string::substr( pos, n )], an [n] of [None] being [npos].  Both
    call sites pass a [pos] that is at most the length (see [find_lt]),
    so the [std::out_of_range] of [substr] cannot arise. *)
Definition substr (s : list ascii) (pos : nat) (n : option nat) : list ascii :=
  match n with
  | Some n => take n (drop pos s)
  | None => drop pos s
  end.

(** ** Outcomes of a call *)

Inductive exn : Type := invalid_argument | out_of_range.

Inductive Run (A : Type) : Type :=
  | Ret (a : A)
  | Throw (e : exn)
  | Diverge.
Arguments Ret {A} a.
Arguments Throw {A} e.
Arguments Diverge {A}.

Definition bind {A B} (m : Run A) (k : A → Run B) : Run B :=
  match m with
  | Ret a => k a
  | Throw e => Throw e
  | Diverge => Diverge
  end.

(** ** [std::stoi]

    [std::stoi( value )] is [strtol( value.c_str(), &end, 10 )]: leading
    white space is skipped, an optional sign is read, then the longest run
    of decimal digits; what follows the digits is ignored.  No digit at
    all throws [std::invalid_argument]; a value outside [int] throws
    [std::out_of_range]. *)

Definition isspace (c : ascii) : bool :=
  let n := N_of_ascii c in ((n =? 32) || ((9 <=? n) && (n <=? 13)))%N.

Definition digit_of (c : ascii) : option Z :=
  let n := N_of_ascii c in
  if ((48 <=? n) && (n <=? 57))%N then Some (Z.of_N n - 48)%Z else None.

Fixpoint skip_space (s : list ascii) : list ascii :=
  match s with
  | c :: s' => if isspace c then skip_space s' else s
  | [] => []
  end.

(** Value of the longest digit prefix, [acc] being the value read so far;
    [seen] tells whether a digit was read. *)
Fixpoint read_digits (acc : Z) (seen : bool) (s : list ascii) : option Z :=
  match s with
  | c :: s' =>
      match digit_of c with
      | Some d => read_digits (10 * acc + d)%Z true s'
      | None => if seen then Some acc else None
      end
  | [] => if seen then Some acc else None
  end.

Definition strtol10 (s : list ascii) : option Z :=
  match skip_space s with
  | c :: s' =>
      if Ascii.eqb c "-" then Z.opp <$> read_digits 0 false s'
      else if Ascii.eqb c "+" then read_digits 0 false s'
      else read_digits 0 false (c :: s')
  | [] => None
  end.

Definition INT_MIN : Z := (- 2 ^ 31)%Z.
Definition INT_MAX : Z := (2 ^ 31 - 1)%Z.

Definition stoi (value : list ascii) : Run Z :=
  match strtol10 value with
  | None => Throw invalid_argument
  | Some v =>
      if ((INT_MIN <=? v) && (v <=? INT_MAX))%Z then Ret v
      else Throw out_of_range
  end.

(** Conversion of an [int] to [uint32_t]: reduction modulo [2^32]. *)
Definition uint32_of_int (z : Z) : N := Z.to_N (z mod 2 ^ 32).

(** ** [class NodeInfo] *)

Record NodeInfo : Type := mkNodeInfo {
  m_hostId : N;
  m_name : list ascii;
  m_ip : list ascii;
  m_maxJobs : N;
  m_noRemote : bool;
  m_offline : bool;
  m_platform : list ascii
}.

(** The private constructor [NodeInfo( hostId )] with the default member
    initialisers. *)
Definition newNodeInfo (hostId : N) : NodeInfo :=
  mkNodeInfo hostId [] [] 0 false false [].

Definition set_name (v : list ascii) (r : NodeInfo) : NodeInfo :=
  mkNodeInfo (m_hostId r) v (m_ip r) (m_maxJobs r) (m_noRemote r) (m_offline r) (m_platform r).
Definition set_ip (v : list ascii) (r : NodeInfo) : NodeInfo :=
  mkNodeInfo (m_hostId r) (m_name r) v (m_maxJobs r) (m_noRemote r) (m_offline r) (m_platform r).
Definition set_maxJobs (v : N) (r : NodeInfo) : NodeInfo :=
  mkNodeInfo (m_hostId r) (m_name r) (m_ip r) v (m_noRemote r) (m_offline r) (m_platform r).
Definition set_noRemote (v : bool) (r : NodeInfo) : NodeInfo :=
  mkNodeInfo (m_hostId r) (m_name r) (m_ip r) (m_maxJobs r) v (m_offline r) (m_platform r).
Definition set_offline (v : bool) (r : NodeInfo) : NodeInfo :=
  mkNodeInfo (m_hostId r) (m_name r) (m_ip r) (m_maxJobs r) (m_noRemote r) v (m_platform r).
Definition set_platform (v : list ascii) (r : NodeInfo) : NodeInfo :=
  mkNodeInfo (m_hostId r) (m_name r) (m_ip r) (m_maxJobs r) (m_noRemote r) (m_offline r) v.

Definition nonempty (s : list ascii) : bool :=
  match s with [] => false | _ => true end.

(** [NodeInfo::isValid]. *)
Definition isValid (r : NodeInfo) : bool :=
  negb (m_hostId r =? 0)%N &&
  nonempty (m_name r) &&
  nonempty (m_ip r) &&
  negb (m_maxJobs r =? 0)%N &&
  nonempty (m_platform r).

(** The [if]/[else if] chain on the lower-cased key inside the scan loop
    of [NodeInfo::create]. *)
Definition assign (name value : list ascii) (res : NodeInfo) : Run NodeInfo :=
  if bool_decide (name = lit "name") then Ret (set_name value res)
  else if bool_decide (name = lit "ip") then Ret (set_ip value res)
  else if bool_decide (name = lit "maxjobs") then
    bind (stoi value) (λ z, Ret (set_maxJobs (uint32_of_int z) res))
  else if bool_decide (name = lit "noremote") then
    Ret (set_noRemote (bool_decide (toLower value = lit "true")) res)
  else if bool_decide (name = lit "state") then
    Ret (set_offline (bool_decide (toLower value = lit "offline")) res)
  else if bool_decide (name = lit "platform") then Ret (set_platform value res)
  else Ret res.

(** The [while( true )] loop of [NodeInfo::create], one iteration per unit
    of [fuel]; [linePos] only grows, so [S (length stats)] iterations are
    always enough (see [scan_lines]). *)
Fixpoint scan (fuel : nat) (stats : list ascii) (linePos : nat) (res : NodeInfo)
  : Run NodeInfo :=
  match fuel with
  | O => Diverge
  | S fuel' =>
      let nextLinePos := find stats LF linePos in
      let colonPos := find stats colon linePos in
      let step :=
        match colonPos with
        | Some cp =>
            if negb (match nextLinePos with
                     | Some nl => nl <? cp
                     | None => false
                     end)
            then
              let name := toLower (substr stats linePos (Some (cp - linePos))) in
              let value :=
                substr stats (cp + 1)
                  (match nextLinePos with
                   | None => None
                   | Some nl => Some (nl - (cp + 1))
                   end) in
              assign name value res
            else Ret res
        | None => Ret res
        end in
      bind step (λ res',
        match nextLinePos with
        | None => Ret res'
        | Some nl =>
            let linePos' := nl + 1 in
            if length stats <? linePos' then Ret res'
            else scan fuel' stats linePos' res'
        end)
  end.

(** [NodeInfo::create]: [Ret None] is the empty [unique_ptr]. *)
Definition create (hostId : N) (stats : list ascii) : Run (option NodeInfo) :=
  if (hostId =? 0)%N then Ret None
  else
    bind (scan (S (length stats)) stats 0 (newNodeInfo hostId)) (λ res,
      Ret (if isValid res then Some res else None)).

(** ** The blob as a list of lines

    The same scan, read off the text: the blob is cut at every line feed,
    a line holding a colon is an entry (lower-cased key before the first
    colon, value after it), and the entries are applied first to last. *)

Fixpoint split_lines (s : list ascii) : list (list ascii) :=
  match s with
  | [] => [[]]
  | c :: s' =>
      if Ascii.eqb c LF then [] :: split_lines s'
      else match split_lines s' with
           | l :: ls => (c :: l) :: ls
           | [] => [[c]]
           end
  end.

Definition parse_line (line : list ascii) : option (list ascii * list ascii) :=
  (λ i, (toLower (take i line), drop (S i) line)) <$> index_of colon line.

Definition apply_line (res : NodeInfo) (line : list ascii) : Run NodeInfo :=
  match parse_line line with
  | Some (name, value) => assign name value res
  | None => Ret res
  end.

Fixpoint fold_lines (res : NodeInfo) (lines : list (list ascii)) : Run NodeInfo :=
  match lines with
  | [] => Ret res
  | l :: ls => bind (apply_line res l) (λ res', fold_lines res' ls)
  end.

(** The entries of a blob, in order, and the value of the last entry
    with a given key. *)
Definition entries (stats : list ascii) : list (list ascii * list ascii) :=
  omap parse_line (split_lines stats).

Definition last_value (key : list ascii) (es : list (list ascii * list ascii))
  : option (list ascii) :=
  snd <$> last (filter (λ e, e.1 = key) es).

(** [res] holds, field by field, the value of the last entry of [es]
    with the field's key, and what [res0] held where no entry has it. *)
Definition fields_from (res0 res : NodeInfo) (es : list (list ascii * list ascii)) : Prop :=
  m_hostId res = m_hostId res0 ∧
  m_name res = default (m_name res0) (last_value (lit "name") es) ∧
  m_ip res = default (m_ip res0) (last_value (lit "ip") es) ∧
  match last_value (lit "maxjobs") es with
  | Some v => ∃ z, stoi v = Ret z ∧ m_maxJobs res = uint32_of_int z
  | None => m_maxJobs res = m_maxJobs res0
  end ∧
  m_noRemote res =
    from_option (λ v, bool_decide (toLower v = lit "true")) (m_noRemote res0)
      (last_value (lit "noremote") es) ∧
  m_offline res =
    from_option (λ v, bool_decide (toLower v = lit "offline")) (m_offline res0)
      (last_value (lit "state") es) ∧
  m_platform res = default (m_platform res0) (last_value (lit "platform") es).

Definition blob (lines : list string) : list ascii :=
  concat (map (λ l, lit l ++ [LF]) lines).


(** Scenario A of the specification: the blob, the record the
    specification gives for it, and the record with the values as they
    stand after the colon. *)
Definition scenarioA : list ascii :=
  blob ["name: alpha"; "ip: 10.0.0.1"; "maxjobs: 4"; "platform: x86_64"].

Definition scenarioA_spec_record : NodeInfo :=
  mkNodeInfo 1 (lit "alpha") (lit "10.0.0.1") 4 false false (lit "x86_64").

Definition scenarioA_record : NodeInfo :=
  mkNodeInfo 1 (lit " alpha") (lit " 10.0.0.1") 4 false false (lit " x86_64").

(** A blob in which [name] and [maxjobs] occur twice, and the record that
    holds the later values. *)
Definition blob_twice : list ascii :=
  blob ["name:a"; "ip:1"; "maxjobs:2"; "platform:p"; "Name:b"; "MAXJOBS:7"].

Definition record_twice : NodeInfo :=
  mkNodeInfo 5 (lit "b") (lit "1") 7 false false (lit "p").

(** A complete blob but for a [maxjobs] value that is no number, and a
    blob that also lacks the name. *)
Definition blob_bad_maxjobs : list ascii :=
  blob ["name:alpha"; "ip:10.0.0.1"; "maxjobs:abc"; "platform:x86_64"].

Definition blob_no_name_bad_maxjobs : list ascii :=
  blob ["ip:10.0.0.1"; "maxjobs:abc"; "platform:x86_64"].

(** ** Messages and the ingestion loop of [main] *)

Definition EXIT_OK : Z := 0.
Definition EXIT_INVALID_ARGS : Z := 1.
Definition EXIT_CONNECTION_ERR : Z := 2.
Definition EXIT_NO_DATA : Z := 3.
Definition USELESS_POLLS_IN_A_ROW_MAX : nat := 3.

(** The messages of the scheduler, by their [type] tag. *)
Inductive Msg : Type :=
  | MonStatsMsg (hostid : N) (statmsg : list ascii)  (* M_MON_STATS *)
  | EndMsg                                           (* M_END *)
  | OtherMsg (type : Z).

(** Control flow inside [main]: go on, [return code], an exception that
    nothing catches, or a callee that does not return. *)
Inductive Flow (A : Type) : Type :=
  | Next (a : A)
  | Return (code : Z)
  | Terminate (e : exn)
  | NoReturn.
Arguments Next {A} a.
Arguments Return {A} code.
Arguments Terminate {A} e.
Arguments NoReturn {A}.

Definition andThen {A B} (m : Flow A) (k : A → Flow B) : Flow B :=
  match m with
  | Next a => k a
  | Return code => Return code
  | Terminate e => Terminate e
  | NoReturn => NoReturn
  end.

(** The variables the message loop updates: [nodes], [hostIdMax] and the
    [wasPollUseful] flag of the current poll iteration. *)
Record Ingest : Type := mkIngest {
  nodes : list NodeInfo;
  hostIdMax : N;
  wasPollUseful : bool
}.

(** One turn of the [while( !channel->read_a_bit() || channel->has_msg() )]
    loop; [msg] is what [channel->get_msg()] returned, [None] being the
    null pointer. *)
Definition on_message (st : Ingest) (msg : option Msg) : Flow Ingest :=
  match msg with
  | None => Return EXIT_CONNECTION_ERR
  | Some (MonStatsMsg hostid statmsg) =>
      match create hostid statmsg with
      | Ret (Some nodeInfo) =>
          if (hostIdMax st <? m_hostId nodeInfo)%N
          then Next (mkIngest (nodes st ++ [nodeInfo]) (m_hostId nodeInfo) true)
          else Next st
      | Ret None => Next st
      | Throw e => Terminate e
      | Diverge => NoReturn
      end
  | Some EndMsg => Return EXIT_CONNECTION_ERR
  | Some (OtherMsg _) => Next st
  end.

(** The whole inner loop, over the results of the successive
    [get_msg()] calls made while its condition holds. *)
Fixpoint drain (st : Ingest) (msgs : list (option Msg)) : Flow Ingest :=
  match msgs with
  | [] => Next st
  | msg :: rest => andThen (on_message st msg) (λ st', drain st' rest)
  end.

(** What one [poll()] call reports: a failure ([pollRes < 0]), a timeout
    ([pollRes == 0]), or readiness, given with the messages the channel
    then hands out. *)
Inductive PollResult : Type :=
  | PollError
  | PollTimeout
  | PollReady (msgs : list (option Msg)).

Record Polling : Type := mkPolling {
  ingest : Ingest;
  uselessPollsInARow : nat
}.

Definition startIngest : Ingest := mkIngest [] 0 false.
Definition startPolling : Polling := mkPolling startIngest 0.

(** Where the [do ... while] loop stands after a finite run of poll
    results. *)
Inductive Polled : Type :=
  | Awaiting (st : Polling)            (* about to call [poll()] again *)
  | Finished (nodes : list NodeInfo)   (* the loop condition failed *)
  | Returned (code : Z)
  | Terminated (e : exn)
  | Stuck.

(** The [do ... while( pollRes != 0 && uselessPollsInARow <
    USELESS_POLLS_IN_A_ROW_MAX )] loop (version 20140510). *)
Fixpoint poll_loop (st : Polling) (polls : list PollResult) : Polled :=
  match polls with
  | [] => Awaiting st
  | PollError :: _ => Returned EXIT_CONNECTION_ERR
  | PollTimeout :: _ => Finished (nodes (ingest st))
  | PollReady msgs :: rest =>
      match drain (mkIngest (nodes (ingest st)) (hostIdMax (ingest st)) false) msgs with
      | Next ing =>
          let useless :=
            if wasPollUseful ing then 0 else S (uselessPollsInARow st) in
          if useless <? USELESS_POLLS_IN_A_ROW_MAX
          then poll_loop (mkPolling ing useless) rest
          else Finished (nodes ing)
      | Return code => Returned code
      | Terminate e => Terminated e
      | NoReturn => Stuck
      end
  end.

(** The [do ... while( pollRes != 0 && wasPollUseful )] loop (version
    20140705); it keeps no streak counter. *)
Fixpoint poll_loop_0705 (ing0 : Ingest) (polls : list PollResult) : Polled :=
  match polls with
  | [] => Awaiting (mkPolling ing0 0)
  | PollError :: _ => Returned EXIT_CONNECTION_ERR
  | PollTimeout :: _ => Finished (nodes ing0)
  | PollReady msgs :: rest =>
      match drain (mkIngest (nodes ing0) (hostIdMax ing0) false) msgs with
      | Next ing =>
          if wasPollUseful ing then poll_loop_0705 ing rest
          else Finished (nodes ing)
      | Return code => Returned code
      | Terminate e => Terminated e
      | NoReturn => Stuck
      end
  end.

(** The earlier revisions call [poll()] once, before any message is read
    (part_001, lines 446-461): a failure and a timeout both end [main]
    with [return 1], the one error code of that revision; otherwise the
    messages are read. *)
Definition poll_once (pollRes : PollResult) : Flow (list (option Msg)) :=
  match pollRes with
  | PollError => Return 1
  | PollTimeout => Return 1
  | PollReady msgs => Next msgs
  end.

(** The invariant of the ingestion loop: the host ids of [nodes] grow
    strictly in insertion order and [hostIdMax] is the last of them (zero
    before the first record). *)
Definition hostIds (nodes : list NodeInfo) : list N := map m_hostId nodes.

Definition ingest_inv (st : Ingest) : Prop :=
  StronglySorted N.lt (hostIds (nodes st)) ∧
  hostIdMax st = default 0%N (last (hostIds (nodes st))).

Definition poll_inv (p : Polled) : Prop :=
  match p with
  | Awaiting st => ingest_inv (ingest st)
  | Finished nodes => StronglySorted N.lt (hostIds nodes)
  | _ => True
  end.

(** ** The aggregator *)

Record Config : Type := mkConfig {
  brief : bool;
  noTable : bool;
  plain : bool;
  ascii_only : bool;   (* the global [ascii] *)
  noOffline : bool;
  noNoRemote : bool
}.

Definition UINT32 : N := (2 ^ 32)%N.

(** The lambda of the [std::all_of] test. *)
Definition filtered_out (cfg : Config) (node : NodeInfo) : bool :=
  (noOffline cfg && m_offline node) || (noNoRemote cfg && m_noRemote node).

(** The lambda of the [std::count_if] and of the row loop. *)
Definition displayed (cfg : Config) (node : NodeInfo) : bool :=
  (negb (noOffline cfg) || negb (m_offline node)) &&
  (negb (noNoRemote cfg) || negb (m_noRemote node)).

(** [std::accumulate] over [nodes] in [uint32_t]. *)
Definition coreCount (nodes : list NodeInfo) : N :=
  fold_left
    (λ (count : N) (node : NodeInfo),
       if negb (m_noRemote node) && negb (m_offline node)
       then ((count + m_maxJobs node) mod UINT32)%N
       else count)
    nodes 0%N.

(** The sum the specification gives for [coreCount]: the [maxJobs] of the
    records that are neither no-remote nor offline, added up as numbers. *)
Definition counted (node : NodeInfo) : bool :=
  negb (m_noRemote node) && negb (m_offline node).

Definition core_sum (nodes : list NodeInfo) : N :=
  foldr N.add 0%N (map m_maxJobs (List.filter counted nodes)).

(** [std::count_if], its result stored in a [uint32_t]. *)
Definition nodeCount (cfg : Config) (nodes : list NodeInfo) : N :=
  (N.of_nat (length (List.filter (displayed cfg) nodes)) mod UINT32)%N.

(** [std::to_string] and [printf( "%u" )] of an unsigned value. *)
Definition to_string (n : N) : list ascii :=
  lit (NilEmpty.string_of_uint (N.to_uint n)).

(** What [printf( "%s", s.c_str() )] prints: the chars before the first
    NUL. *)
Fixpoint c_str (s : list ascii) : list ascii :=
  match s with
  | [] => []
  | c :: s' => if Ascii.eqb c "000" then [] else c :: c_str s'
  end.

(** ** The table renderer *)

Inductive Alignment : Type := Left | Right | Center.

Record ColumnHeader : Type := mkColumnHeader {
  alignment : Alignment;
  treatAsUnicode : bool;
  name : list ascii
}.

(** The ICU services [renderTable] calls; the library itself is not part
    of the program, so its operations are taken as an interface. *)
Class TextShaping : Type := {
  UnicodeString : Type;
  (** [icu::UnicodeString( const char* )] *)
  fromCString : list ascii → UnicodeString;
  (** [Transliterator::transliterate] of the "Latin-ASCII" instance *)
  transliterate : UnicodeString → UnicodeString;
  (** [UnicodeString::length()] *)
  uLength : UnicodeString → nat;
  (** the chars [UnicodeString::extract] writes, up to the NUL *)
  extract : UnicodeString → list ascii;
  (** whether [Transliterator::createInstance] succeeds *)
  transliterator_ok : bool
}.

Definition VERT_LINE_LO : list ascii := lit "|".
Definition CROSS_LO : list ascii := lit "+".
Definition HOR_LINE_LO : list ascii := lit "-".
Definition TICK_LO : list ascii := lit "X".
Definition NO_TICK_LO : list ascii := [].
(** The UTF-8 bytes of U+2502, U+253C, U+2500 and U+221A. *)
Definition VERT_LINE_HI : list ascii := ["226"; "148"; "130"]%char.
Definition CROSS_HI : list ascii := ["226"; "148"; "188"]%char.
Definition HOR_LINE_HI : list ascii := ["226"; "148"; "128"]%char.
Definition TICK_HI : list ascii := ["226"; "136"; "154"]%char.
Definition NO_TICK_HI : list ascii := [].

(** [for( std::size_t i = 0; i < n; ++i ) body] on a state [S]. *)
Definition for_each {S : Type} (n : nat) (body : nat → S → S) (s : S) : S :=
  foldl (λ s i, body i s) s (seq 0 n).

(** [v[i]] of a vector, [d] standing for what lies outside it (no access
    of [renderTable] does: see [renderTable_layout]). *)
Definition at_ {A : Type} (v : list A) (i : nat) (d : A) : A := nth i v d.

Definition noHeader : ColumnHeader := mkColumnHeader Left false [].

(** The vectors [data], [lens] and [colMaxLens]. *)
Record Cells : Type := mkCells {
  data : list (list ascii);
  lens : list nat;
  colMaxLens : list nat
}.

Section Renderer.
Context `{TextShaping}.
Variables (header : list ColumnHeader) (strings : list (list ascii)).
(** [asciiOnly] is the parameter [ascii] of the source. *)
Variables (plain asciiOnly : bool).

Let columnCount : nat := length header.
Let rowCount : nat := length strings / columnCount.

(** [trans] is non-null. *)
Definition trans_on : bool := asciiOnly && transliterator_ok.

(** The cell at column [c] and row [r] as the first pair of loops
    computes it: the text [res] and its length [len], the margin of the
    first and of the last column included.  Row [0] is the header. *)
Definition shape (c r : nat) : list ascii * nat :=
  let origStr :=
    if r =? 0 then name (at_ header c noHeader)
    else at_ strings (columnCount * (r - 1) + c) [] in
  let '(res, len) :=
    if treatAsUnicode (at_ header c noHeader) then
      let uniStr := fromCString (c_str origStr) in
      if trans_on then
        let uniStr' := transliterate uniStr in
        (extract uniStr', uLength uniStr')
      else (origStr, uLength uniStr)
    else (origStr, length origStr) in
  if negb plain then
    if c =? 0 then (space :: res, S len)
    else if c =? columnCount - 1 then (res ++ [space], S len)
    else (res, len)
  else (res, len).

(** Body of the first pair of loops: the cell is stored and the
    maximum of its column updated. *)
Definition measure (c r : nat) (t : Cells) : Cells :=
  let '(res, len) := shape c r in
  mkCells (<[columnCount * r + c := res]> (data t))
          (<[columnCount * r + c := len]> (lens t))
          (<[c := at_ (colMaxLens t) c 0 `max` len]> (colMaxLens t)).

(** The padding of one string: the [if( len < maxLen )] and its
    [switch( align )]. *)
Definition pad_str (align : Alignment) (maxLen len : nat) (str : list ascii)
  : list ascii :=
  if len <? maxLen then
    let lenDiff := maxLen - len in
    match align with
    | Left => str ++ replicate lenDiff space
    | Right => replicate lenDiff space ++ str
    | Center =>
        replicate (lenDiff / 2) space ++ str ++
        replicate (lenDiff - lenDiff / 2) space
    end
  else str.

(** Body of the second pair of loops. *)
Definition pad (c r : nat) (t : Cells) : Cells :=
  let maxLen := at_ (colMaxLens t) c 0 in
  let align := alignment (at_ header c noHeader) in
  let str := at_ (data t) (columnCount * r + c) [] in
  let len := at_ (lens t) (columnCount * r + c) 0 in
  mkCells (<[columnCount * r + c := pad_str align maxLen len str]> (data t))
          (lens t) (colMaxLens t).

Definition vert_sep : list ascii :=
  if plain then [space]
  else if asciiOnly then [space] ++ VERT_LINE_LO ++ [space]
  else [space] ++ VERT_LINE_HI ++ [space].

Definition cross_sep : list ascii :=
  if asciiOnly then HOR_LINE_LO ++ CROSS_LO ++ HOR_LINE_LO
  else HOR_LINE_HI ++ CROSS_HI ++ HOR_LINE_HI.

Definition hor_line : list ascii := if asciiOnly then HOR_LINE_LO else HOR_LINE_HI.

(** Body of the last pair of loops: row [r] appended to [table]. *)
Definition emit_row (t : Cells) (r : nat) (table : list ascii) : list ascii :=
  let table :=
    for_each columnCount (λ c table,
      let table := if 0 <? c then table ++ vert_sep else table in
      table ++ at_ (data t) (columnCount * r + c) []) table in
  let table := table ++ [LF] in
  if (r =? 0) && negb plain then
    let table :=
      for_each columnCount (λ c table,
        let table := if 0 <? c then table ++ cross_sep else table in
        for_each (at_ (colMaxLens t) c 0) (λ _ table, table ++ hor_line) table)
        table in
    table ++ [LF]
  else table.

(** [renderTable]; [None] stands for the division by a zero
    [columnCount], on which the function has no defined result. *)
Definition renderTable : option (list ascii) :=
  if columnCount =? 0 then None
  else
    let t0 := mkCells (replicate (columnCount * (rowCount + 1)) [])
                      (replicate (columnCount * (rowCount + 1)) 0)
                      (replicate columnCount 0) in
    let t1 :=
      for_each columnCount (λ c t,
        for_each (rowCount + 1) (λ r t, measure c r t) t) t0 in
    let t2 :=
      for_each columnCount (λ c t,
        for_each (rowCount + 1) (λ r t, pad c r t) t) t1 in
    Some (for_each (rowCount + 1) (λ r table, emit_row t2 r table) []).

(** *** The layout of the table, as the specification words it

    Column widths are the maxima of the measured cell widths over the
    header and all rows; every cell is padded to the width of its
    column; a row line is its cells joined by the column separator; the
    rule under the header joins runs of the horizontal glyph. *)

Definition cell_text (c r : nat) : list ascii := (shape c r).1.
Definition cell_width (c r : nat) : nat := (shape c r).2.

(** Largest width among the first [rows] rows of column [c]. *)
Definition col_max (c rows : nat) : nat :=
  foldl (λ m r, m `max` cell_width c r) 0 (seq 0 rows).

Definition col_width (c : nat) : nat := col_max c (rowCount + 1).

Definition padded (c r : nat) : list ascii :=
  pad_str (alignment (at_ header c noHeader)) (col_width c) (cell_width c r)
    (cell_text c r).

Definition join (sep : list ascii) (parts : list (list ascii)) : list ascii :=
  match parts with
  | [] => []
  | p :: ps => p ++ concat (map (λ q, sep ++ q) ps)
  end.

Definition row_cells (r : nat) : list (list ascii) :=
  map (λ c, padded c r) (seq 0 columnCount).

Definition row_line (r : nat) : list ascii :=
  join vert_sep (row_cells r) ++ [LF].

Definition rule_line : list ascii :=
  join cross_sep
    (map (λ c, concat (replicate (col_width c) hor_line)) (seq 0 columnCount))
  ++ [LF].

Definition layout : list ascii :=
  row_line 0 ++ (if plain then [] else rule_line) ++
  concat (map row_line (seq 1 rowCount)).

(** *** Invariants of the two pairs of loops

    [measured k j]: the cells of the columns before [k] and of the first
    [j] rows of column [k] are stored with their lengths, and every entry
    of [colMaxLens] is the maximum over the rows seen so far. *)
Definition measured (k j : nat) (t : Cells) : Prop :=
  length (data t) = columnCount * (rowCount + 1) ∧
  length (lens t) = columnCount * (rowCount + 1) ∧
  length (colMaxLens t) = columnCount ∧
  (∀ c r, c < columnCount → r ≤ rowCount → c < k ∨ (c = k ∧ r < j) →
     data t !! (columnCount * r + c) = Some (cell_text c r) ∧
     lens t !! (columnCount * r + c) = Some (cell_width c r)) ∧
  (∀ c, c < columnCount →
     colMaxLens t !! c =
     Some (col_max c (if c <? k then rowCount + 1
                      else if c =? k then j else 0))).

(** [padded_upto k j]: the same cells are padded by now, the others are
    as measured; lengths and column widths are the final ones. *)
Definition padded_upto (k j : nat) (t : Cells) : Prop :=
  length (data t) = columnCount * (rowCount + 1) ∧
  (∀ c r, c < columnCount → r ≤ rowCount →
     data t !! (columnCount * r + c) =
       Some (if (c <? k) || ((c =? k) && (r <? j)) then padded c r
             else cell_text c r) ∧
     lens t !! (columnCount * r + c) = Some (cell_width c r)) ∧
  (∀ c, c < columnCount → colMaxLens t !! c = Some (col_width c)).
End Renderer.

(** ** The end of [main]: totals, table and exit code *)

(** How a run of [main] ends.  [stdout] holds what was printed with
    [printf] (the messages of [PRINT_ERR] and the like go to [stderr] and
    are left out). *)
Inductive Outcome : Type :=
  | Exited (code : Z) (stdout : list ascii)
  | Aborted (e : exn)      (* [std::terminate] after an uncaught exception *)
  | Waiting                (* the given poll results are used up *)
  | Hung
  | Undefined.

Definition mainHeader : list ColumnHeader :=
  [ mkColumnHeader Right false (lit "Node #");
    mkColumnHeader Center true (lit "Offline?");
    mkColumnHeader Center true (lit "No remote?");
    mkColumnHeader Left true (lit "Name");
    mkColumnHeader Left false (lit "IP");
    mkColumnHeader Right false (lit "Cores");
    mkColumnHeader Left false (lit "Platform") ].

Definition tick (cfg : Config) (b : bool) : list ascii :=
  if b then (if ascii_only cfg then TICK_LO else TICK_HI)
  else (if ascii_only cfg then NO_TICK_LO else NO_TICK_HI).

(** The seven strings pushed for one displayed node. *)
Definition node_row (cfg : Config) (node : NodeInfo) : list (list ascii) :=
  [ to_string (m_hostId node);
    tick cfg (m_offline node);
    tick cfg (m_noRemote node);
    m_name node;
    m_ip node;
    to_string (m_maxJobs node);
    m_platform node ].

(** The [for( const auto& node : nodes )] loop filling [strings]. *)
Definition table_strings (cfg : Config) (nodes : list NodeInfo) : list (list ascii) :=
  fold_left
    (λ strings node,
       if displayed cfg node then strings ++ node_row cfg node else strings)
    nodes [].

(** [nodes.empty()]. *)
Definition empty_nodes (nodes : list NodeInfo) : bool :=
  match nodes with [] => true | _ => false end.

Definition plural (n : N) : list ascii := if (n =? 1)%N then [] else lit "s".

(** [main] after the poll loop. *)
Definition report `{TextShaping} (cfg : Config) (nodes : list NodeInfo) : Outcome :=
  if empty_nodes nodes || forallb (filtered_out cfg) nodes
  then Exited EXIT_NO_DATA []
  else
    let cores := coreCount nodes in
    let count := nodeCount cfg nodes in
    if brief cfg then Exited EXIT_OK (to_string cores ++ [LF])
    else
      let summary :=
        to_string count ++ lit " node" ++ plural count ++ lit ", " ++
        to_string cores ++ lit " core" ++ plural cores ++ lit " total." ++ [LF] in
      if negb (noTable cfg) then
        match renderTable mainHeader (table_strings cfg nodes)
                (plain cfg) (ascii_only cfg) with
        | Some table =>
            Exited EXIT_OK ([LF] ++ c_str table ++ [LF] ++ summary)
        | None => Undefined
        end
      else Exited EXIT_OK summary.

(** [main] from the first [poll()] on, that is once the scheduler was
    found and accepted the login; [polls] are the results of the
    successive [poll()] calls. *)
Definition main `{TextShaping} (cfg : Config) (polls : list PollResult) : Outcome :=
  match poll_loop startPolling polls with
  | Finished nodes => report cfg nodes
  | Returned code => Exited code []
  | Terminated e => Aborted e
  | Awaiting _ => Waiting
  | Stuck => Hung
  end.

(** A text-shaping service for plain 7-bit text: a [UnicodeString] is its
    chars, one code unit each, and transliteration changes nothing. *)
Definition plainShaping : TextShaping :=
  {| UnicodeString := list ascii;
     fromCString := λ s, s;
     transliterate := λ u, u;
     uLength := λ u, length u;
     extract := λ u, c_str u;
     transliterator_ok := true |}.

(** Column [k] of a flat vector of [columnCount]-wide rows, as
    [renderTable] indexes it. *)
Definition column (columnCount k : nat) (strings : list (list ascii))
  : list (list ascii) :=
  map (λ r, at_ strings (columnCount * r + k) [])
      (seq 0 (length strings / columnCount)).

(** Three stats messages of nodes with [INT_MAX] cores each, and the
    records parsed from them. *)
Definition big_blob : list ascii :=
  blob ["name:n"; "ip:1"; "maxjobs:2147483647"; "platform:p"].

Definition big_node (hostId : N) : NodeInfo :=
  mkNodeInfo hostId (lit "n") (lit "1") 2147483647 false false (lit "p").

Definition big_polls : list PollResult :=
  [ PollReady [ Some (MonStatsMsg 1 big_blob); Some (MonStatsMsg 2 big_blob);
                Some (MonStatsMsg 3 big_blob) ];
    PollTimeout ].

Definition quietConfig : Config := mkConfig true false false false false false.
Definition tableConfig : Config := mkConfig false false false true false false.

(** Two sample nodes, the first offline. *)
Definition blob_alpha : list ascii :=
  blob ["Name:alpha"; "IP:10.0.0.1"; "MaxJobs:4"; "Platform:x86_64"; "State:Offline"].
Definition blob_beta : list ascii :=
  blob ["Name:beta"; "IP:10.0.0.2"; "MaxJobs:8"; "Platform:x86_64"].

(** A two-column sample table. *)
Definition sample_header : list ColumnHeader :=
  [ mkColumnHeader Right false (lit "Node #");
    mkColumnHeader Left true (lit "Name") ].

Definition sample_strings : list (list ascii) :=
  [lit "1"; lit "alpha"; lit "12"; lit "b"].

(** ** Further definitions: what the parser takes no notice of *)

(** The keys the [if]/[else if] chain of [NodeInfo::create] knows. *)
Definition recognized (key : list ascii) : bool :=
  bool_decide (key = lit "name") || bool_decide (key = lit "ip") ||
  bool_decide (key = lit "maxjobs") || bool_decide (key = lit "noremote") ||
  bool_decide (key = lit "state") || bool_decide (key = lit "platform").

(** A line the scan passes over: it holds no colon, or its lower-cased
    key is none of the six. *)
Definition ignored_line (line : list ascii) : Prop :=
  match parse_line line with
  | None => True
  | Some (key, _) => recognized key = false
  end.

(** ** Further definitions: the ingestion loop *)

(** The state at the start of a poll iteration: [wasPollUseful = false]. *)
Definition fresh (ing : Ingest) : Ingest :=
  mkIngest (nodes ing) (hostIdMax ing) false.

(** A readable poll whose messages are all read and none accepted. *)
Definition useless_poll (ing : Ingest) (msgs : list (option Msg)) : Prop :=
  ∃ ing', drain (fresh ing) msgs = Next ing' ∧ wasPollUseful ing' = false.

(** Messages of a type other than [M_MON_STATS] and [M_END]. *)
Definition is_other (msg : option Msg) : bool :=
  match msg with
  | Some (OtherMsg _) => true
  | _ => false
  end.

Definition without_other (msgs : list (option Msg)) : list (option Msg) :=
  List.filter (λ msg, negb (is_other msg)) msgs.

Definition poll_without_other (p : PollResult) : PollResult :=
  match p with
  | PollReady msgs => PollReady (without_other msgs)
  | _ => p
  end.

(** The records the loop holds where it stands, if it still runs or left
    normally. *)
Definition collected (p : Polled) : option (list NodeInfo) :=
  match p with
  | Awaiting st => Some (nodes (ingest st))
  | Finished ns => Some ns
  | _ => None
  end.

(** The stats messages among the messages of one poll, and among the
    results of a run of polls. *)
Definition stats_in (msgs : list (option Msg)) : list (N * list ascii) :=
  flat_map (λ msg, match msg with
                   | Some (MonStatsMsg hostid statmsg) => [(hostid, statmsg)]
                   | _ => []
                   end) msgs.

Definition stats_of (polls : list PollResult) : list (N * list ascii) :=
  flat_map (λ p, match p with
                 | PollReady msgs => stats_in msgs
                 | _ => []
                 end) polls.

(** The records parsed from the two sample blobs. *)
Definition alpha_node : NodeInfo :=
  mkNodeInfo 1 (lit "alpha") (lit "10.0.0.1") 4 false true (lit "x86_64").
Definition beta_node (hostId : N) : NodeInfo :=
  mkNodeInfo hostId (lit "beta") (lit "10.0.0.2") 8 false false (lit "x86_64").

(** [r] is the record [create] returns for one of the stats messages. *)
Definition from_stats (stats : list (N * list ascii)) (r : NodeInfo) : Prop :=
  ∃ hostid statmsg, (hostid, statmsg) ∈ stats ∧ create hostid statmsg = Ret (Some r).

(** [ns] is [old] followed by at most one record per stats message, each
    the parse of one of them. *)
Definition grown_from (old ns : list NodeInfo) (stats : list (N * list ascii)) : Prop :=
  ∃ k, ns = old ++ k ∧ Forall (from_stats stats) k ∧ length k ≤ length stats.

(** ** Further definitions: the clock *)

(** A [struct timespec] as [clock_gettime] fills it. *)
Record timespec : Type := mkTimespec { tv_sec : Z; tv_nsec : Z }.

(** [getTimestamp], on the reading [clock_gettime] stored: milliseconds.
    The division of [long] truncates, hence [Z.quot]; the arithmetic is
    taken within the range of [long]. *)
Definition getTimestamp (ts : timespec) : Z :=
  (tv_sec ts * 1000 + tv_nsec ts ÷ 1000000)%Z.

(** ** Further definitions: the command line *)

Definition VER_NO : list ascii := lit "20140510".

Definition VersionStr : list ascii :=
  lit "icequery version " ++ VER_NO ++ [LF] ++
  lit "Copyright (C) 2014 Robert P" ++
  [ascii_of_N 197; ascii_of_N 130; ascii_of_N 195; ascii_of_N 179] ++
  lit "ciennik" ++ [LF] ++
  lit "Licensed under GPLv2" ++ [LF].

Definition TIMEOUT_DEFAULT : Z := 2000.

(** What [getopt_long] returns for the option table of [main], with
    [optarg] where the option takes an argument.  The end of the options
    (the result [-1]) is the end of the list. *)
Inductive OptRes : Type :=
  | opt_help                              (* 'h' *)
  | opt_version                           (* 'v' *)
  | opt_unknown                           (* '?' *)
  | opt_missing                           (* ':' *)
  | opt_net_name (optarg : list ascii)    (* 'n' *)
  | opt_timeout (optarg : list ascii)     (* 't' *)
  | opt_quiet                             (* 'q' *)
  | opt_very_quiet                        (* 'Q' *)
  | opt_brief                             (* 'b' *)
  | opt_no_table                          (* 'T' *)
  | opt_plain                             (* 'P' *)
  | opt_ascii                             (* 'A' *)
  | opt_addr (optarg : list ascii)        (* 1 *)
  | opt_port (optarg : list ascii)        (* 2 *)
  | opt_no_offline                        (* 3 *)
  | opt_no_noremote                       (* 4 *)
  | opt_color (optarg : list ascii)       (* 5 *)
  | opt_debug.                            (* 13 *)

(** The two conversions [main] asks of [sscanf]: the number stored when
    the call returns [1], nothing otherwise. *)
Class Scanf : Type := {
  sscanf_u : list ascii → option N;     (* "%u" *)
  sscanf_hu : list ascii → option N     (* "%hu" *)
}.

(** The [unsigned] that ["%u"] stores, read back as the [int] that
    [timeout] is. *)
Definition int_of_unsigned (u : N) : Z :=
  let z := Z.of_N (u mod 2 ^ 32) in
  if (z <? 2 ^ 31)%Z then z else (z - 2 ^ 32)%Z.

(** The global variables. *)
Module Globals.
Record t : Type := mk {
  netName : list ascii;
  timeout : Z;
  schedAddr : list ascii;
  schedPort : N;
  quiet : bool;
  veryQuiet : bool;
  brief : bool;
  noTable : bool;
  plain : bool;
  ascii_only : bool;    (* the global [ascii] *)
  noOffline : bool;
  noNoRemote : bool;
  debug : bool;
  useColor : bool
}.

Definition set_netName (v : list ascii) (g : t) : t :=
  mk v (timeout g) (schedAddr g) (schedPort g) (quiet g) (veryQuiet g)
     (brief g) (noTable g) (plain g) (ascii_only g) (noOffline g)
     (noNoRemote g) (debug g) (useColor g).
Definition set_timeout (v : Z) (g : t) : t :=
  mk (netName g) v (schedAddr g) (schedPort g) (quiet g) (veryQuiet g)
     (brief g) (noTable g) (plain g) (ascii_only g) (noOffline g)
     (noNoRemote g) (debug g) (useColor g).
Definition set_schedAddr (v : list ascii) (g : t) : t :=
  mk (netName g) (timeout g) v (schedPort g) (quiet g) (veryQuiet g)
     (brief g) (noTable g) (plain g) (ascii_only g) (noOffline g)
     (noNoRemote g) (debug g) (useColor g).
Definition set_schedPort (v : N) (g : t) : t :=
  mk (netName g) (timeout g) (schedAddr g) v (quiet g) (veryQuiet g)
     (brief g) (noTable g) (plain g) (ascii_only g) (noOffline g)
     (noNoRemote g) (debug g) (useColor g).
Definition set_quiet (v : bool) (g : t) : t :=
  mk (netName g) (timeout g) (schedAddr g) (schedPort g) v (veryQuiet g)
     (brief g) (noTable g) (plain g) (ascii_only g) (noOffline g)
     (noNoRemote g) (debug g) (useColor g).
Definition set_veryQuiet (v : bool) (g : t) : t :=
  mk (netName g) (timeout g) (schedAddr g) (schedPort g) (quiet g) v
     (brief g) (noTable g) (plain g) (ascii_only g) (noOffline g)
     (noNoRemote g) (debug g) (useColor g).
Definition set_brief (v : bool) (g : t) : t :=
  mk (netName g) (timeout g) (schedAddr g) (schedPort g) (quiet g)
     (veryQuiet g) v (noTable g) (plain g) (ascii_only g) (noOffline g)
     (noNoRemote g) (debug g) (useColor g).
Definition set_noTable (v : bool) (g : t) : t :=
  mk (netName g) (timeout g) (schedAddr g) (schedPort g) (quiet g)
     (veryQuiet g) (brief g) v (plain g) (ascii_only g) (noOffline g)
     (noNoRemote g) (debug g) (useColor g).
Definition set_plain (v : bool) (g : t) : t :=
  mk (netName g) (timeout g) (schedAddr g) (schedPort g) (quiet g)
     (veryQuiet g) (brief g) (noTable g) v (ascii_only g) (noOffline g)
     (noNoRemote g) (debug g) (useColor g).
Definition set_ascii (v : bool) (g : t) : t :=
  mk (netName g) (timeout g) (schedAddr g) (schedPort g) (quiet g)
     (veryQuiet g) (brief g) (noTable g) (plain g) v (noOffline g)
     (noNoRemote g) (debug g) (useColor g).
Definition set_noOffline (v : bool) (g : t) : t :=
  mk (netName g) (timeout g) (schedAddr g) (schedPort g) (quiet g)
     (veryQuiet g) (brief g) (noTable g) (plain g) (ascii_only g) v
     (noNoRemote g) (debug g) (useColor g).
Definition set_noNoRemote (v : bool) (g : t) : t :=
  mk (netName g) (timeout g) (schedAddr g) (schedPort g) (quiet g)
     (veryQuiet g) (brief g) (noTable g) (plain g) (ascii_only g)
     (noOffline g) v (debug g) (useColor g).
Definition set_debug (v : bool) (g : t) : t :=
  mk (netName g) (timeout g) (schedAddr g) (schedPort g) (quiet g)
     (veryQuiet g) (brief g) (noTable g) (plain g) (ascii_only g)
     (noOffline g) (noNoRemote g) v (useColor g).
Definition set_useColor (v : bool) (g : t) : t :=
  mk (netName g) (timeout g) (schedAddr g) (schedPort g) (quiet g)
     (veryQuiet g) (brief g) (noTable g) (plain g) (ascii_only g)
     (noOffline g) (noNoRemote g) (debug g) v.
End Globals.

(** The globals when the option loop starts; [tty] tells whether
    [fileno( stderr )] is a descriptor and [isatty] answers [1] for it. *)
Definition defaults (tty : bool) : Globals.t :=
  Globals.mk [] TIMEOUT_DEFAULT [] 0 false false false false false false
    false false false tty.

(** How the option loop ends: it is left with the globals set, or [main]
    returns there with what it printed on [stdout]. *)
Inductive Parsed : Type :=
  | Proceed (g : Globals.t)
  | Stop (code : Z) (stdout : list ascii).

(** The [switch] over [optRes]. *)
Definition on_option `{Scanf} (o : OptRes) (g : Globals.t) : Parsed :=
  match o with
  | opt_help => Stop EXIT_INVALID_ARGS []
  | opt_version => Stop EXIT_OK VersionStr
  | opt_unknown => Stop EXIT_INVALID_ARGS []
  | opt_missing => Stop EXIT_INVALID_ARGS []
  | opt_net_name optarg => Proceed (Globals.set_netName optarg g)
  | opt_timeout optarg =>
      match sscanf_u optarg with
      | Some u => Proceed (Globals.set_timeout (int_of_unsigned u) g)
      | None => Stop EXIT_INVALID_ARGS []
      end
  | opt_quiet => Proceed (Globals.set_quiet true g)
  | opt_very_quiet =>
      Proceed (Globals.set_veryQuiet true (Globals.set_quiet true g))
  | opt_brief =>
      Proceed (Globals.set_noTable true (Globals.set_veryQuiet true
                 (Globals.set_quiet true (Globals.set_brief true g))))
  | opt_no_table => Proceed (Globals.set_noTable true g)
  | opt_plain => Proceed (Globals.set_plain true g)
  | opt_ascii => Proceed (Globals.set_ascii true g)
  | opt_addr optarg => Proceed (Globals.set_schedAddr optarg g)
  | opt_port optarg =>
      match sscanf_hu optarg with
      | Some p => Proceed (Globals.set_schedPort (p mod 2 ^ 16) g)
      | None => Stop EXIT_INVALID_ARGS []
      end
  | opt_no_offline => Proceed (Globals.set_noOffline true g)
  | opt_no_noremote => Proceed (Globals.set_noNoRemote true g)
  | opt_color optarg =>
      if bool_decide (optarg = lit "always")
      then Proceed (Globals.set_useColor true g)
      else if bool_decide (optarg = lit "never")
      then Proceed (Globals.set_useColor false g)
      else if negb (bool_decide (optarg = lit "auto"))
      then Stop EXIT_INVALID_ARGS []
      else Proceed g
  | opt_debug => Proceed (Globals.set_debug true g)
  end.

(** The [while( true )] around [getopt_long]. *)
Fixpoint options_loop `{Scanf} (opts : list OptRes) (g : Globals.t) : Parsed :=
  match opts with
  | [] => Proceed g
  | o :: rest =>
      match on_option o g with
      | Proceed g' => options_loop rest g'
      | Stop code out => Stop code out
      end
  end.

(** The part of the globals the report reads. *)
Definition config_of (g : Globals.t) : Config :=
  mkConfig (Globals.brief g) (Globals.noTable g) (Globals.plain g)
    (Globals.ascii_only g) (Globals.noOffline g) (Globals.noNoRemote g).

(** ** Further definitions: finding the scheduler *)

(** One turn of the [do]/[while]: whether [try_get_scheduler] gave a
    channel, what [timed_out] answered after it, and the clock reading
    of the loop condition (looked at only when there is no channel). *)
Record Attempt : Type := mkAttempt {
  got_channel : bool;
  timed_out : bool;
  now : timespec
}.

Inductive Discovery : Type :=
  | LoopLeft (channel : bool)   (* whether [channel] is set *)
  | GaveUp (code : Z)           (* [return] inside the loop *)
  | Trying.                     (* the given attempts are used up *)

Fixpoint discover_loop (timeout channelTimestamp : Z) (attempts : list Attempt)
  : Discovery :=
  match attempts with
  | [] => Trying
  | a :: rest =>
      if timed_out a then GaveUp EXIT_CONNECTION_ERR
      else if negb (got_channel a) &&
              (getTimestamp (now a) - channelTimestamp <=? timeout)%Z
      then discover_loop timeout channelTimestamp rest
      else LoopLeft (got_channel a)
  end.

Inductive Link : Type :=
  | Linked               (* the scheduler took the login *)
  | Refused (code : Z)
  | Pending.

(** From the first [getTimestamp] to the login; [late] is the answer of
    the second [timed_out], [login] that of [send_msg]. *)
Definition connect (timeout : Z) (start : timespec) (attempts : list Attempt)
    (late login : bool) : Link :=
  match discover_loop timeout (getTimestamp start) attempts with
  | Trying => Pending
  | GaveUp code => Refused code
  | LoopLeft channel =>
      if late then Refused EXIT_CONNECTION_ERR
      else if negb channel then Refused EXIT_CONNECTION_ERR
      else if negb login then Refused EXIT_CONNECTION_ERR
      else Linked
  end.

(** The turns of the loop after which it goes round again. *)
Definition retried (timeout : Z) (start : timespec) (a : Attempt) : Prop :=
  timed_out a = false ∧ got_channel a = false ∧
  (getTimestamp (now a) - getTimestamp start ≤ timeout)%Z.

(** What the environment answers during one run. *)
Record World : Type := mkWorld {
  tty : bool;
  opts : list OptRes;
  start : timespec;
  attempts : list Attempt;
  late : bool;
  login : bool;
  polls : list PollResult
}.

(** [main] as a whole. *)
Definition icequery `{TextShaping} `{Scanf} (w : World) : Outcome :=
  match options_loop (opts w) (defaults (tty w)) with
  | Stop code out => Exited code out
  | Proceed g =>
      match connect (Globals.timeout g) (start w) (attempts w)
              (late w) (login w) with
      | Pending => Waiting
      | Refused code => Exited code []
      | Linked => main (config_of g) (polls w)
      end
  end.

(** A scanner of decimal numerals, for examples. *)
Definition decimalScanf : Scanf :=
  {| sscanf_u := λ s, match stoi s with
                      | Ret z => if (0 <=? z)%Z then Some (Z.to_N z) else None
                      | _ => None
                      end;
     sscanf_hu := λ s, match stoi s with
                       | Ret z => if (0 <=? z)%Z then Some (Z.to_N z) else None
                       | _ => None
                       end |}.

(** A run with [-b]: the second attempt finds the scheduler, which
    sends the statistics of two nodes. *)
Definition brief_run : World :=
  mkWorld true [opt_brief] (mkTimespec 100 0)
    [mkAttempt false false (mkTimespec 100 5000000);
     mkAttempt true false (mkTimespec 100 9000000)]
    false true
    [PollReady [Some (MonStatsMsg 1 blob_alpha); Some (MonStatsMsg 2 blob_beta)];
     PollTimeout].
(** ** Facts about the string primitives *)

Lemma index_of_lt c s i : index_of c s = Some i → i < length s.
Proof.
  revert i. induction s as [|x s IH]; intros i; simpl; [discriminate|].
  destruct (Ascii.eqb x c).
  - intros [= <-]. lia.
  - destruct (index_of c s) as [j|]; simpl; [|discriminate].
    intros [= <-]. specialize (IH j eq_refl). lia.
Qed.

Lemma index_of_lookup c s i : index_of c s = Some i → s !! i = Some c.
Proof.
  revert i. induction s as [|x s IH]; intros i; simpl; [discriminate|].
  destruct (Ascii.eqb_spec x c) as [->|Hne].
  - intros [= <-]. reflexivity.
  - destruct (index_of c s) as [j|]; simpl; [|discriminate].
    intros [= <-]. simpl. auto.
Qed.

Lemma index_of_first c s i k : index_of c s = Some i → k < i → s !! k ≠ Some c.
Proof.
  revert i k. induction s as [|x s IH]; intros i k; simpl; [discriminate|].
  destruct (Ascii.eqb_spec x c) as [->|Hne].
  - intros [= <-]. lia.
  - destruct (index_of c s) as [j|]; simpl; [|discriminate].
    intros [= <-] Hk. destruct k as [|k]; simpl.
    + congruence.
    + apply (IH j); [reflexivity | lia].
Qed.

Lemma index_of_None c s : index_of c s = None → c ∉ s.
Proof.
  induction s as [|x s IH]; simpl; intros H.
  - apply not_elem_of_nil.
  - destruct (Ascii.eqb_spec x c) as [->|Hne]; [discriminate|].
    destruct (index_of c s); [discriminate|].
    apply not_elem_of_cons. split; [congruence | auto].
Qed.

Lemma index_of_take_lt c s i j :
  index_of c s = Some j → j < i → index_of c (take i s) = Some j.
Proof.
  revert i j. induction s as [|x s IH]; intros i j; simpl; [discriminate|].
  destruct i as [|i]; [lia|]. simpl.
  destruct (Ascii.eqb x c); [auto|].
  destruct (index_of c s) as [k|] eqn:E; simpl; [|discriminate].
  intros [= <-] Hlt. rewrite (IH i k); [reflexivity | reflexivity | lia].
Qed.

Lemma index_of_take_ge c s i :
  (∀ j, index_of c s = Some j → i ≤ j) → index_of c (take i s) = None.
Proof.
  revert i. induction s as [|x s IH]; intros i H; simpl.
  - destruct i; reflexivity.
  - destruct i as [|i]; [reflexivity|]. simpl. simpl in H.
    destruct (Ascii.eqb x c).
    + specialize (H 0 eq_refl). lia.
    + rewrite IH; [reflexivity|].
      intros j Hj. rewrite Hj in H. specialize (H (S j) eq_refl). lia.
Qed.

(** What [find] returns: a position at or after [pos], below the length,
    holding [c], and the first such. *)
Lemma find_spec s c pos i :
  find s c pos = Some i →
  pos ≤ i ∧ i < length s ∧ s !! i = Some c ∧
  ∀ k, pos ≤ k → k < i → s !! k ≠ Some c.
Proof.
  unfold find. destruct (index_of c (drop pos s)) as [j|] eqn:E; simpl; [|discriminate].
  intros [= <-].
  pose proof (index_of_lt _ _ _ E) as Hlt. rewrite length_drop in Hlt.
  pose proof (index_of_lookup _ _ _ E) as Hl. rewrite lookup_drop in Hl.
  repeat split; [lia | lia | exact Hl |].
  intros k Hk1 Hk2.
  pose proof (index_of_first _ _ _ (k - pos) E ltac:(lia)) as Hf.
  rewrite lookup_drop in Hf. replace (pos + (k - pos)) with k in Hf by lia.
  exact Hf.
Qed.

Lemma find_lt s c pos i : find s c pos = Some i → i + 1 ≤ length s.
Proof. intros H. apply find_spec in H. lia. Qed.

Lemma find_None s c pos k :
  find s c pos = None → pos ≤ k → s !! k ≠ Some c.
Proof.
  unfold find. destruct (index_of c (drop pos s)) eqn:E; simpl; [discriminate|].
  intros _ Hk Hl. apply index_of_None in E. apply E.
  apply list_elem_of_lookup. exists (k - pos).
  rewrite lookup_drop. replace (pos + (k - pos)) with k by lia. exact Hl.
Qed.

(** ** The scan loop is the first-to-last fold over the lines *)

Lemma split_lines_no_LF s : index_of LF s = None → split_lines s = [s].
Proof.
  induction s as [|x s IH]; simpl; [reflexivity|].
  destruct (Ascii.eqb x LF); [discriminate|].
  destruct (index_of LF s); [discriminate|].
  intros _. rewrite IH; reflexivity.
Qed.

Lemma split_lines_LF s i :
  index_of LF s = Some i →
  split_lines s = take i s :: split_lines (drop (S i) s).
Proof.
  revert i. induction s as [|x s IH]; intros i; simpl; [discriminate|].
  destruct (Ascii.eqb x LF).
  - intros [= <-]. reflexivity.
  - destruct (index_of LF s) as [j|]; simpl; [|discriminate].
    intros [= <-]. rewrite (IH j eq_refl). reflexivity.
Qed.

Lemma index_of_colon_LF s i j :
  index_of LF s = Some i → index_of colon s = Some j → i ≠ j.
Proof.
  intros Hi Hj ->. apply index_of_lookup in Hi, Hj.
  rewrite Hi in Hj. discriminate.
Qed.

Lemma scan_fold stats fuel pos res :
  pos ≤ length stats → length stats - pos < fuel →
  scan fuel stats pos res = fold_lines res (split_lines (drop pos stats)).
Proof.
  revert pos res. induction fuel as [|fuel IH]; intros pos res Hpos Hfuel; [lia|].
  cbn [scan]. unfold find.
  destruct (index_of LF (drop pos stats)) as [i|] eqn:Hnl; cbn [fmap option_fmap option_map].
  - rewrite (split_lines_LF _ _ Hnl). cbn [fold_lines].
    pose proof (index_of_lt _ _ _ Hnl) as Hi. rewrite length_drop in Hi.
    assert (Hstep :
      match (λ i0, pos + i0) <$> index_of colon (drop pos stats) with
      | Some cp =>
          if negb (pos + i <? cp)
          then assign (toLower (substr stats pos (Some (cp - pos))))
                 (substr stats (cp + 1) (Some (pos + i - (cp + 1)))) res
          else Ret res
      | None => Ret res
      end = apply_line res (take i (drop pos stats))).
    { unfold apply_line, parse_line.
      destruct (index_of colon (drop pos stats)) as [j|] eqn:Hc; simpl.
      - pose proof (index_of_colon_LF _ _ _ Hnl Hc) as Hne.
        destruct (Nat.ltb_spec (pos + i) (pos + j)) as [Hlt|Hge]; simpl.
        + rewrite index_of_take_ge; [reflexivity|].
          intros k Hk. rewrite Hc in Hk. injection Hk as <-. lia.
        + rewrite (index_of_take_lt _ _ _ _ Hc) by lia. simpl.
          replace (pos + j - pos) with j by lia.
          rewrite take_take. replace (j `min` i) with j by lia.
          f_equal. rewrite skipn_firstn_comm, drop_drop.
          replace (pos + S j) with (pos + j + 1) by lia.
          replace (pos + i - (pos + j + 1)) with (i - S j) by lia.
          reflexivity.
      - rewrite index_of_take_ge; [reflexivity|].
        intros k Hk. rewrite Hc in Hk. discriminate. }
    rewrite Hstep. destruct (apply_line res (take i (drop pos stats))) as [res'| |];
      cbn [bind]; try reflexivity.
    destruct (Nat.ltb_spec (length stats) (pos + i + 1)) as [Hlt|Hge]; [lia|].
    rewrite IH by lia. rewrite drop_drop.
    replace (pos + S i) with (pos + i + 1) by lia. reflexivity.
  - rewrite (split_lines_no_LF _ Hnl). cbn [fold_lines].
    unfold apply_line, parse_line.
    destruct (index_of colon (drop pos stats)) as [j|] eqn:Hc; simpl.
    + replace (pos + j - pos) with j by lia. rewrite drop_drop.
      replace (pos + S j) with (pos + j + 1) by lia.
      destruct (assign _ _ res); reflexivity.
    + reflexivity.
Qed.

(** The fuel that [create] passes is enough: the loop is the fold over
    the lines of the blob, which never diverges. *)
Lemma scan_lines stats res :
  scan (S (length stats)) stats 0 res = fold_lines res (split_lines stats).
Proof. rewrite scan_fold by lia. reflexivity. Qed.

Lemma assign_total name value res : assign name value res ≠ Diverge.
Proof.
  unfold assign, stoi.
  repeat (case_bool_decide; try discriminate).
  destruct (strtol10 value) as [v|]; simpl; [|discriminate].
  destruct (_ && _)%bool; simpl; discriminate.
Qed.

Lemma fold_lines_total lines res : fold_lines res lines ≠ Diverge.
Proof.
  revert res. induction lines as [|l ls IH]; intros res; simpl; [discriminate|].
  unfold apply_line. destruct (parse_line l) as [[name value]|]; simpl; [|apply IH].
  pose proof (assign_total name value res) as Ha.
  destruct (assign name value res); simpl; [apply IH | discriminate | congruence].
Qed.

Lemma create_total hostId stats : create hostId stats ≠ Diverge.
Proof.
  unfold create. destruct (hostId =? 0)%N; [discriminate|].
  rewrite scan_lines. pose proof (fold_lines_total (split_lines stats) (newNodeInfo hostId)) as H.
  destruct (fold_lines _ _); simpl; [discriminate | discriminate | congruence].
Qed.

(** ** Every field is decided by the last entry with its key *)

Lemma fold_lines_app res ls1 ls2 :
  fold_lines res (ls1 ++ ls2) = bind (fold_lines res ls1) (λ r, fold_lines r ls2).
Proof.
  revert res. induction ls1 as [|l ls1 IH]; intros res; simpl; [reflexivity|].
  destruct (apply_line res l); simpl; auto.
Qed.


Lemma last_value_snoc key es e :
  last_value key (es ++ [e]) =
  if bool_decide (e.1 = key) then Some e.2 else last_value key es.
Proof.
  unfold last_value. rewrite filter_app.
  case_bool_decide as H.
  - rewrite filter_cons_True by exact H. rewrite filter_nil, last_snoc. reflexivity.
  - rewrite filter_cons_False by exact H. rewrite filter_nil, app_nil_r. reflexivity.
Qed.

Lemma fields_from_refl res : fields_from res res [].
Proof. repeat split. Qed.

Ltac key_ne :=
  first [ assumption
        | let X := fresh in intro X; vm_compute in X; discriminate X ].

Ltac key_cases :=
  repeat match goal with
  | |- context [bool_decide (?a = ?b)] =>
      first [ rewrite (bool_decide_eq_true_2 (a = b)) by reflexivity
            | rewrite (bool_decide_eq_false_2 (a = b)) by key_ne ]
  | H : context [bool_decide (?a = ?b)] |- _ =>
      first [ rewrite (bool_decide_eq_true_2 (a = b)) in H by reflexivity
            | rewrite (bool_decide_eq_false_2 (a = b)) in H by key_ne ]
  end.

Lemma fields_from_assign res0 r1 res es name value :
  fields_from res0 r1 es → assign name value r1 = Ret res →
  fields_from res0 res (es ++ [(name, value)]).
Proof.
  intros (Hh & Hn & Hi & Hm & Hr & Ho & Hp) Ha.
  unfold fields_from. rewrite !last_value_snoc. cbn [fst snd].
  unfold assign in Ha.
  destruct (decide (name = lit "name")) as [->|?];
    [|destruct (decide (name = lit "ip")) as [->|?];
      [|destruct (decide (name = lit "maxjobs")) as [->|?];
        [|destruct (decide (name = lit "noremote")) as [->|?];
          [|destruct (decide (name = lit "state")) as [->|?];
            [|destruct (decide (name = lit "platform")) as [->|?]]]]]];
    key_cases.
  3: { destruct (stoi value) as [z| |] eqn:Hz; simpl in Ha; try discriminate.
       injection Ha as <-. cbn. repeat split; try assumption.
       exists z. split; [first [exact Hz | reflexivity] | reflexivity]. }
  all: injection Ha as <-; cbn; repeat split; assumption.
Qed.

Lemma fold_lines_fields lines res0 res :
  fold_lines res0 lines = Ret res → fields_from res0 res (omap parse_line lines).
Proof.
  revert res. induction lines as [|l lines IH] using rev_ind; intros res.
  - simpl. intros [= <-]. apply fields_from_refl.
  - rewrite fold_lines_app, omap_app. simpl.
    destruct (fold_lines res0 lines) as [r1| |]; simpl; try discriminate.
    specialize (IH r1 eq_refl). unfold apply_line.
    destruct (parse_line l) as [[name value]|]; simpl.
    + destruct (assign name value r1) as [r2| |] eqn:Ha; simpl; try discriminate.
      intros [= <-]. eapply fields_from_assign; eassumption.
    + intros [= <-]. rewrite app_nil_r. exact IH.
Qed.

(** ** The parser: validity of what [create] returns *)

Lemma isValid_spec r :
  isValid r = true ↔
  (0 < m_hostId r)%N ∧ m_name r ≠ [] ∧ m_ip r ≠ [] ∧
  (0 < m_maxJobs r)%N ∧ m_platform r ≠ [].
Proof.
  unfold isValid. rewrite !andb_true_iff, !negb_true_iff, !N.eqb_neq.
  assert (Hne : ∀ s : list ascii, nonempty s = true ↔ s ≠ []).
  { intros [|c s]; simpl; split; congruence. }
  rewrite !Hne. split.
  - intros ((((H1 & H2) & H3) & H4) & H5). repeat split; auto; lia.
  - intros (H1 & H2 & H3 & H4 & H5). repeat split; auto; lia.
Qed.

Lemma fold_lines_hostId lines res0 res :
  fold_lines res0 lines = Ret res → m_hostId res = m_hostId res0.
Proof. intros H. apply fold_lines_fields in H. apply H. Qed.

(** A record that [create] returns passed [isValid] and carries the
    [hostId] it was asked for: nothing half-filled leaves the parser. *)
Lemma create_returns_valid hostId stats r :
  create hostId stats = Ret (Some r) →
  m_hostId r = hostId ∧ (0 < hostId)%N ∧ m_name r ≠ [] ∧ m_ip r ≠ [] ∧
  (0 < m_maxJobs r)%N ∧ m_platform r ≠ [].
Proof.
  unfold create. destruct (N.eqb_spec hostId 0) as [|Hh]; [discriminate|].
  rewrite scan_lines.
  destruct (fold_lines _ _) as [res| |] eqn:Hf; simpl; try discriminate.
  destruct (isValid res) eqn:Hv; [|discriminate].
  intros [= <-]. apply fold_lines_hostId in Hf. simpl in Hf.
  apply isValid_spec in Hv. rewrite Hf in Hv. tauto.
Qed.

(** When the scan completes on a blob whose last [name], [ip] or
    [platform] entry is missing or empty, or whose [maxjobs] is missing or
    stored as zero, [create] returns the empty pointer. *)
Lemma create_absent hostId stats res :
  fold_lines (newNodeInfo hostId) (split_lines stats) = Ret res →
  hostId = 0%N ∨
  default [] (last_value (lit "name") (entries stats)) = [] ∨
  default [] (last_value (lit "ip") (entries stats)) = [] ∨
  m_maxJobs res = 0%N ∨
  default [] (last_value (lit "platform") (entries stats)) = [] →
  create hostId stats = Ret None.
Proof.
  intros Hf Hmiss. unfold create.
  destruct (N.eqb_spec hostId 0) as [|Hh]; [reflexivity|].
  rewrite scan_lines, Hf. simpl.
  destruct (isValid res) eqn:Hv; [|reflexivity].
  apply isValid_spec in Hv. destruct Hv as (_ & Hn & Hi & Hm & Hp).
  apply fold_lines_fields in Hf.
  destruct Hf as (_ & Hn' & Hi' & _ & _ & _ & Hp'). simpl in Hn', Hi', Hp'.
  fold (entries stats) in Hn', Hi', Hp'.
  destruct Hmiss as [?|[?|[?|[?|?]]]]; [congruence | congruence | congruence | lia | congruence].
Qed.

(** C1. For a blob that lacks the name (and so must yield no record),
    [create] does not return the empty pointer: the [std::stoi] of its
    non-numeric [maxjobs] value throws [std::invalid_argument] out of
    [create]. *)
Theorem create_missing_name_throws :
  last_value (lit "name") (entries blob_no_name_bad_maxjobs) = None ∧
  create 1 blob_no_name_bad_maxjobs = Throw invalid_argument ∧
  create 1 blob_no_name_bad_maxjobs ≠ Ret None.
Proof. vm_compute. repeat split; discriminate. Qed.

(** The defect is general: whenever some line of the blob is a [maxjobs]
    entry from which [std::stoi] reads no integer, [create] (for a host id
    other than zero) throws instead of returning. *)
Lemma fold_lines_throws lines res line value e :
  line ∈ lines → parse_line line = Some (lit "maxjobs", value) →
  stoi value = Throw e →
  ∃ e', fold_lines res lines = Throw e'.
Proof.
  intros Hin Hp Hs. revert res.
  induction lines as [|l lines IH]; intros res; [apply elem_of_nil in Hin; contradiction|].
  simpl. apply elem_of_cons in Hin as [<-|Hin].
  - unfold apply_line. rewrite Hp. unfold assign. key_cases.
    rewrite Hs. simpl. eauto.
  - pose proof (fold_lines_total [l] res) as Ht. simpl in Ht.
    destruct (apply_line res l) as [res'| |]; simpl in *; [auto | eauto | congruence].
Qed.

Lemma create_throws_on_bad_maxjobs hostId stats line value e :
  hostId ≠ 0%N → line ∈ split_lines stats →
  parse_line line = Some (lit "maxjobs", value) → stoi value = Throw e →
  ∃ e', create hostId stats = Throw e'.
Proof.
  intros Hh Hin Hp Hs. unfold create.
  destruct (N.eqb_spec hostId 0); [contradiction|]. rewrite scan_lines.
  destruct (fold_lines_throws _ (newNodeInfo hostId) _ _ _ Hin Hp Hs) as [e' ->].
  exists e'. reflexivity.
Qed.

(** C4. On a blob whose [maxjobs] value is not numeric, [create] does not
    return at all: [std::stoi] throws [std::invalid_argument], and since
    [main] catches nothing the run ends in [std::terminate]. *)
Theorem main_terminates_on_bad_maxjobs `{TextShaping} (cfg : Config) :
  create 1 blob_bad_maxjobs = Throw invalid_argument ∧
  main cfg [PollReady [Some (MonStatsMsg 1 blob_bad_maxjobs)]; PollTimeout]
    = Aborted invalid_argument.
Proof. split; vm_compute; reflexivity. Qed.

(** C5, as the specification states it, fails: the values keep the space
    that follows the colon, so the record is not the one it gives. *)
Lemma scenarioA_not_spec_record :
  create 1 scenarioA ≠ Ret (Some scenarioA_spec_record).
Proof. vm_compute. discriminate. Qed.

(** C5 (amended). Parsing the blob of scenario A with [hostId = 1] yields
    the valid record whose name, ip and platform are " alpha",
    " 10.0.0.1" and " x86_64", each with the space that follows the colon,
    and whose [maxJobs] is 4, [noRemote] and [offline] being false. *)
Theorem scenarioA_parses :
  create 1 scenarioA = Ret (Some scenarioA_record) ∧
  isValid scenarioA_record = true.
Proof. split; vm_compute; reflexivity. Qed.

(** The same entries written without a space after the colon, as the
    scheduler sends them, give the record of the specification. *)
Lemma scenarioA_without_spaces :
  create 1 (blob ["name:alpha"; "ip:10.0.0.1"; "maxjobs:4"; "platform:x86_64"])
  = Ret (Some scenarioA_spec_record).
Proof. vm_compute. reflexivity. Qed.

(** A negative [maxjobs] is no parse failure: the [int] that [std::stoi]
    returns is converted to [uint32_t], so [-1] is stored as [2^32 - 1]
    and passes the non-zero test of [isValid]. *)
Example create_negative_maxjobs :
  create 1 (blob ["name:alpha"; "ip:10.0.0.1"; "maxjobs:-1"; "platform:x86_64"])
  = Ret (Some (mkNodeInfo 1 (lit "alpha") (lit "10.0.0.1") 4294967295 false false
                 (lit "x86_64"))).
Proof. vm_compute. reflexivity. Qed.

(** C10. The scan loop of [create] is the fold of [apply_line] over the
    lines of the blob, first to last; hence in a record that [create]
    returns every field holds the value of the last entry with its key
    (for [maxjobs] the integer [std::stoi] reads from it, for [noremote]
    and [state] the comparison of the lower-cased value), and the initial
    value when the blob has no such entry. *)
Theorem create_last_occurrence (hostId : N) (stats : list ascii) (r : NodeInfo) :
  create hostId stats = Ret (Some r) →
  scan (S (length stats)) stats 0 (newNodeInfo hostId)
    = fold_lines (newNodeInfo hostId) (split_lines stats) ∧
  fields_from (newNodeInfo hostId) r (entries stats).
Proof.
  intros Hc. split; [apply scan_lines|].
  unfold create in Hc. destruct (hostId =? 0)%N; [discriminate|].
  rewrite scan_lines in Hc.
  destruct (fold_lines _ _) as [res| |] eqn:Hf; simpl in Hc; try discriminate.
  destruct (isValid res); [|discriminate].
  injection Hc as <-. apply fold_lines_fields in Hf. exact Hf.
Qed.

Lemma create_last_occurrence_witness :
  scan (S (length blob_twice)) blob_twice 0 (newNodeInfo 5)
    = fold_lines (newNodeInfo 5) (split_lines blob_twice) ∧
  fields_from (newNodeInfo 5) record_twice (entries blob_twice).
Proof.
  apply (create_last_occurrence 5 blob_twice record_twice).
  vm_compute. reflexivity.
Defined.

(** On that blob the later [name] and [maxjobs] win. *)
Example create_twice : create 5 blob_twice = Ret (Some record_twice).
Proof. vm_compute. reflexivity. Qed.

(** ** The ingestion loop *)

Lemma andThen_Next {A B} (m : Flow A) (k : A → Flow B) b :
  andThen m k = Next b → ∃ a, m = Next a ∧ k a = Next b.
Proof. destruct m; simpl; try discriminate. eauto. Qed.

Lemma drain_app st ms1 ms2 :
  drain st (ms1 ++ ms2) = andThen (drain st ms1) (λ st', drain st' ms2).
Proof.
  revert st. induction ms1 as [|m ms1 IH]; intros st; simpl; [reflexivity|].
  destruct (on_message st m); simpl; auto.
Qed.

Lemma poll_loop_app pre rest st st' :
  poll_loop st pre = Awaiting st' →
  poll_loop st (pre ++ rest) = poll_loop st' rest.
Proof.
  revert st. induction pre as [|p pre IH]; intros st; simpl.
  - intros [= ->]. reflexivity.
  - destruct p as [| |msgs]; try discriminate.
    destruct (drain _ msgs) as [ing| | |]; try discriminate.
    destruct (_ <? _); [apply IH | discriminate].
Qed.

Lemma poll_loop_0705_app pre rest ing st' :
  poll_loop_0705 ing pre = Awaiting st' →
  poll_loop_0705 ing (pre ++ rest) = poll_loop_0705 (ingest st') rest.
Proof.
  revert ing. induction pre as [|p pre IH]; intros ing; simpl.
  - intros [= <-]. reflexivity.
  - destruct p as [| |msgs]; try discriminate.
    destruct (drain _ msgs) as [ing'| | |]; try discriminate.
    destruct (wasPollUseful ing'); [apply IH | discriminate].
Qed.

(** What a stats message does to the state, by the result of [create]. *)
Lemma on_stats_cases st hostid statmsg :
  match create hostid statmsg with
  | Ret (Some r) =>
      if (hostIdMax st <? m_hostId r)%N
      then on_message st (Some (MonStatsMsg hostid statmsg))
           = Next (mkIngest (nodes st ++ [r]) (m_hostId r) true)
      else on_message st (Some (MonStatsMsg hostid statmsg)) = Next st
  | Ret None => on_message st (Some (MonStatsMsg hostid statmsg)) = Next st
  | Throw e => on_message st (Some (MonStatsMsg hostid statmsg)) = Terminate e
  | Diverge => False
  end.
Proof.
  pose proof (create_total hostid statmsg) as Ht. simpl.
  destruct (create hostid statmsg) as [[r|]| |]; try reflexivity; [|congruence].
  destruct (_ <? _)%N; reflexivity.
Qed.

Lemma app_singleton_neq {A} (l : list A) (x : A) : l ≠ l ++ [x].
Proof.
  intros Heq. apply (f_equal length) in Heq. rewrite length_app in Heq.
  simpl in Heq. lia.
Qed.

(** C2. A stats message is accepted, that is its record appended to
    [nodes], [hostIdMax] set to its host id and the poll marked useful,
    exactly when [create] returns a (valid) record whose host id is
    strictly greater than [hostIdMax]; a valid record that is not greater
    and an invalid blob leave the state as it was; and these are the only
    two things a stats message can do to the state. *)
Theorem stats_message_accepted_iff (st : Ingest) (hostid : N) (statmsg : list ascii) :
  (∀ r, on_message st (Some (MonStatsMsg hostid statmsg))
          = Next (mkIngest (nodes st ++ [r]) (m_hostId r) true)
        ↔ create hostid statmsg = Ret (Some r) ∧ isValid r = true ∧
          (hostIdMax st < m_hostId r)%N) ∧
  (∀ r, create hostid statmsg = Ret (Some r) →
        (m_hostId r ≤ hostIdMax st)%N →
        on_message st (Some (MonStatsMsg hostid statmsg)) = Next st) ∧
  (create hostid statmsg = Ret None →
   on_message st (Some (MonStatsMsg hostid statmsg)) = Next st) ∧
  (∀ st', on_message st (Some (MonStatsMsg hostid statmsg)) = Next st' →
          st' = st ∨
          ∃ r, create hostid statmsg = Ret (Some r) ∧
               (hostIdMax st < m_hostId r)%N ∧
               st' = mkIngest (nodes st ++ [r]) (m_hostId r) true).
Proof.
  pose proof (on_stats_cases st hostid statmsg) as Hc.
  pose proof (create_returns_valid hostid statmsg) as Hv.
  destruct (create hostid statmsg) as [[r0|]| |] eqn:Hcr; [| | |contradiction].
  - assert (Hvalid : isValid r0 = true).
    { apply isValid_spec. destruct (Hv r0 eq_refl) as (-> & ?). tauto. }
    destruct (N.ltb_spec (hostIdMax st) (m_hostId r0)) as [Hlt|Hge];
      rewrite Hc; (split; [intros r; split|split; [|split]]).
    + intros [= Happ _]. apply app_inj_tail in Happ as [_ <-]. auto.
    + intros ([= <-] & _ & _). reflexivity.
    + intros r [= <-] Hle. lia.
    + discriminate.
    + intros st' [= <-]. right. exists r0. auto.
    + intros [= Heq]. apply (f_equal nodes) in Heq. simpl in Heq.
      destruct (app_singleton_neq _ _ Heq).
    + intros ([= <-] & _ & Hlt). lia.
    + reflexivity.
    + discriminate.
    + intros st' [= <-]. left. reflexivity.
  - rewrite Hc. split; [intros r; split|split; [|split]].
    + intros [= Heq]. apply (f_equal nodes) in Heq. simpl in Heq.
      destruct (app_singleton_neq _ _ Heq).
    + intros (? & _). discriminate.
    + discriminate.
    + reflexivity.
    + intros st' [= <-]. left. reflexivity.
  - rewrite Hc. split; [intros r; split|split; [|split]]; try discriminate.
    intros (? & _). discriminate.
Qed.

(** A second copy of a node, and a node with a lower host id, are
    discarded; a higher host id is accepted. *)
Example copies_discarded :
  drain startIngest
    [Some (MonStatsMsg 2 blob_beta); Some (MonStatsMsg 2 blob_beta);
     Some (MonStatsMsg 1 blob_alpha)]
  = drain startIngest [Some (MonStatsMsg 2 blob_beta)].
Proof. vm_compute. reflexivity. Qed.

(** *** The invariant: host ids grow strictly *)

Lemma sorted_le_last (l : list N) y :
  StronglySorted N.lt l → y ∈ l → (y ≤ default 0 (last l))%N.
Proof.
  induction l as [|x l _] using rev_ind; intros Hs Hy.
  - apply elem_of_nil in Hy. contradiction.
  - rewrite last_snoc. simpl. apply elem_of_app in Hy as [Hy|Hy].
    + apply N.lt_le_incl. eapply StronglySorted_app_1_elem_of; [exact Hs|exact Hy|].
      apply list_elem_of_singleton. reflexivity.
    + apply list_elem_of_singleton in Hy. subst. reflexivity.
Qed.

Lemma sorted_snoc (l : list N) x :
  StronglySorted N.lt l → (default 0 (last l) < x)%N →
  StronglySorted N.lt (l ++ [x]).
Proof.
  intros Hs Hx. apply StronglySorted_app. split; [|split].
  - intros y z Hy Hz. apply list_elem_of_singleton in Hz. subst z.
    pose proof (sorted_le_last l y Hs Hy). lia.
  - exact Hs.
  - repeat constructor.
Qed.

Lemma sorted_NoDup (l : list N) : StronglySorted N.lt l → NoDup l.
Proof.
  induction 1 as [|x l Hs IH Hall]; constructor; [|exact IH].
  intros Hin. rewrite Forall_forall in Hall.
  specialize (Hall x Hin). lia.
Qed.

Lemma ingest_inv_start : ingest_inv startIngest.
Proof. split; [constructor | reflexivity]. Qed.


Lemma on_message_inv st msg st' :
  ingest_inv st → on_message st msg = Next st' → ingest_inv st'.
Proof.
  intros [Hs Hm]. destruct msg as [[hostid statmsg| |ty]|]; simpl; try discriminate.
  - destruct (create hostid statmsg) as [[r|]| |]; try discriminate.
    + destruct (N.ltb_spec (hostIdMax st) (m_hostId r)) as [Hlt|Hge].
      * intros [= <-]. unfold ingest_inv, hostIds. simpl.
        rewrite map_app. simpl. rewrite last_snoc. split; [|reflexivity].
        apply sorted_snoc; [exact Hs|]. fold (hostIds (nodes st)).
        rewrite <- Hm. exact Hlt.
      * intros [= <-]. split; assumption.
    + intros [= <-]. split; assumption.
  - intros [= <-]. split; assumption.
Qed.

Lemma drain_inv msgs st st' :
  ingest_inv st → drain st msgs = Next st' → ingest_inv st'.
Proof.
  revert st. induction msgs as [|m msgs IH]; intros st Hinv; simpl.
  - intros [= <-]. exact Hinv.
  - intros H. apply andThen_Next in H as (st1 & H1 & H2).
    eapply IH; [|exact H2]. eapply on_message_inv; eassumption.
Qed.

Lemma poll_loop_inv polls st :
  ingest_inv (ingest st) → poll_inv (poll_loop st polls).
Proof.
  revert st. induction polls as [|p polls IH]; intros st Hinv; simpl.
  - exact Hinv.
  - destruct p as [| |msgs]; simpl; [exact I | apply Hinv |].
    destruct (drain _ msgs) as [ing| | |] eqn:Hd; simpl; try exact I.
    assert (Hing : ingest_inv ing).
    { eapply drain_inv; [|exact Hd]. exact Hinv. }
    destruct (_ <? _); [apply IH; exact Hing | apply Hing].
Qed.

Lemma poll_loop_0705_inv polls ing :
  ingest_inv ing → poll_inv (poll_loop_0705 ing polls).
Proof.
  revert ing. induction polls as [|p polls IH]; intros ing Hinv; simpl.
  - exact Hinv.
  - destruct p as [| |msgs]; simpl; [exact I | apply Hinv |].
    destruct (drain _ msgs) as [ing'| | |] eqn:Hd; simpl; try exact I.
    assert (Hing : ingest_inv ing').
    { eapply drain_inv; [|exact Hd]. exact Hinv. }
    destruct (wasPollUseful ing'); [apply IH; exact Hing | apply Hing].
Qed.

(** *** The rows handed to the renderer *)

Lemma table_strings_fold cfg ns acc :
  fold_left
    (λ strings node,
       if displayed cfg node then strings ++ node_row cfg node else strings)
    ns acc
  = acc ++ concat (map (node_row cfg) (List.filter (displayed cfg) ns)).
Proof.
  revert acc. induction ns as [|n ns IH]; intros acc; simpl.
  - rewrite app_nil_r. reflexivity.
  - rewrite IH. destruct (displayed cfg n); simpl; [|reflexivity].
    rewrite <- app_assoc. reflexivity.
Qed.

Lemma table_strings_rows cfg ns :
  table_strings cfg ns
  = concat (map (node_row cfg) (List.filter (displayed cfg) ns)).
Proof. unfold table_strings. rewrite table_strings_fold. reflexivity. Qed.

Lemma length_concat_rows {A} C (rows : list (list A)) :
  Forall (λ row, length row = C) rows → length (concat rows) = C * length rows.
Proof.
  induction 1 as [|row rows Hrow _ IH]; simpl; [lia|].
  rewrite length_app, IH, Hrow. lia.
Qed.

Lemma nth_concat_rows {A} C (rows : list (list A)) r k d :
  Forall (λ row, length row = C) rows → k < C → r < length rows →
  nth (C * r + k) (concat rows) d = nth k (nth r rows []) d.
Proof.
  intros Hall Hk. revert r. induction Hall as [|row rows Hrow _ IH]; intros r Hr; simpl in *.
  - lia.
  - destruct r as [|r].
    + rewrite Nat.mul_0_r. simpl. apply app_nth1. lia.
    + rewrite app_nth2 by lia. rewrite Hrow.
      replace (C * S r + k - C) with (C * r + k) by lia.
      apply IH. lia.
Qed.

Lemma nth_map_lt {A B} (f : A → B) (l : list A) n d d' :
  n < length l → nth n (map f l) d = f (nth n l d').
Proof.
  revert n. induction l as [|x l IH]; intros n Hn; simpl in *; [lia|].
  destruct n as [|n]; [reflexivity|]. apply IH. lia.
Qed.

Lemma column_concat_rows C k (rows : list (list (list ascii))) :
  Forall (λ row, length row = C) rows → k < C →
  column C k (concat rows) = map (λ row, nth k row []) rows.
Proof.
  intros Hall Hk. unfold column.
  rewrite (length_concat_rows C rows Hall).
  replace (C * length rows / C) with (length rows)
    by (rewrite Nat.mul_comm, Nat.div_mul; lia).
  apply (nth_ext _ _ [] []).
  - rewrite !length_map, length_seq. reflexivity.
  - intros n Hn. rewrite length_map, length_seq in Hn.
    rewrite (nth_map_lt _ _ _ _ 0) by (rewrite length_seq; exact Hn).
    rewrite seq_nth by exact Hn. simpl. unfold at_.
    rewrite (nth_concat_rows C) by assumption.
    rewrite (nth_map_lt _ _ _ _ []) by exact Hn. reflexivity.
Qed.

Lemma NoDup_map_inj {A B} (f : A → B) (l : list A) :
  (∀ x y, f x = f y → x = y) → NoDup l → NoDup (map f l).
Proof.
  intros Hf. induction 1 as [|x l Hx _ IH]; simpl; constructor; [|exact IH].
  intros Hin. apply list_elem_of_In, in_map_iff in Hin as (y & Hy & Hin).
  apply Hf in Hy. subst y. apply Hx, list_elem_of_In, Hin.
Qed.

Lemma to_string_inj (a b : N) : to_string a = to_string b → a = b.
Proof.
  intros Hab. unfold to_string, lit in Hab.
  apply (f_equal string_of_list_ascii) in Hab.
  rewrite !string_of_list_ascii_of_string in Hab.
  apply (f_equal NilEmpty.uint_of_string) in Hab.
  rewrite !NilEmpty.usu in Hab. injection Hab as Hab.
  apply (f_equal N.of_uint) in Hab.
  rewrite !DecimalN.Unsigned.of_to in Hab. exact Hab.
Qed.

Lemma filter_sorted (f : NodeInfo → bool) ns :
  StronglySorted N.lt (hostIds ns) →
  StronglySorted N.lt (hostIds (List.filter f ns)).
Proof.
  induction ns as [|n ns IH]; simpl; intros Hs; [constructor|].
  apply StronglySorted_inv in Hs as [Hs Hall].
  destruct (f n); simpl; [|auto].
  constructor; [auto|].
  rewrite List.Forall_forall in Hall |- *. intros h Hh. apply Hall.
  unfold hostIds in *. apply in_map_iff in Hh as (m & <- & Hm).
  apply filter_In in Hm as [Hm _]. apply in_map. exact Hm.
Qed.

Lemma node_numbers cfg ns :
  column 7 0 (table_strings cfg ns)
  = map to_string (hostIds (List.filter (displayed cfg) ns)).
Proof.
  rewrite table_strings_rows, (column_concat_rows 7); [| |lia].
  - unfold hostIds. rewrite !map_map. reflexivity.
  - apply List.Forall_forall. intros row Hrow.
    apply in_map_iff in Hrow as (n & <- & _). reflexivity.
Qed.

(** C9. The ingestion loop keeps [ingest_inv]: it holds at the start,
    every message preserves it, so it holds wherever the poll loop (of
    either version) stands; under it [hostIdMax] bounds every accepted
    host id and is the last one accepted, no two records share a host id,
    and the "Node #" cells of the rows handed to the renderer are pairwise
    distinct. *)
Theorem ingestion_invariant :
  ingest_inv startIngest ∧
  (∀ st msg st', ingest_inv st → on_message st msg = Next st' → ingest_inv st') ∧
  (∀ polls, poll_inv (poll_loop startPolling polls)) ∧
  (∀ polls, poll_inv (poll_loop_0705 startIngest polls)) ∧
  (∀ st, ingest_inv st →
     StronglySorted N.lt (hostIds (nodes st)) ∧
     hostIdMax st = default 0%N (last (hostIds (nodes st))) ∧
     (∀ n, n ∈ nodes st → (m_hostId n ≤ hostIdMax st)%N) ∧
     NoDup (hostIds (nodes st))) ∧
  (∀ cfg ns, StronglySorted N.lt (hostIds ns) →
     NoDup (column 7 0 (table_strings cfg ns))).
Proof.
  split; [exact ingest_inv_start|].
  split; [exact on_message_inv|].
  split; [intros polls; apply poll_loop_inv, ingest_inv_start|].
  split; [intros polls; apply poll_loop_0705_inv, ingest_inv_start|].
  split.
  - intros st [Hs Hm]. repeat split; [exact Hs | exact Hm | | apply sorted_NoDup, Hs].
    intros n Hn. rewrite Hm. apply sorted_le_last; [exact Hs|].
    unfold hostIds. apply list_elem_of_In, in_map, list_elem_of_In, Hn.
  - intros cfg ns Hs. rewrite node_numbers.
    apply NoDup_map_inj; [exact to_string_inj|].
    apply sorted_NoDup, filter_sorted, Hs.
Qed.

(** ** How [main] ends *)

Lemma report_no_nodes `{TextShaping} cfg : report cfg [] = Exited EXIT_NO_DATA [].
Proof. reflexivity. Qed.

(** C6, as the specification states it, fails on the single-poll revision
    (part_001): there a poll timeout, with no record accepted yet, ends
    [main] with the error code 1 of a poll failure, not with 3. *)
Lemma single_poll_timeout_is_error :
  poll_once PollTimeout = Return 1 ∧
  poll_once PollTimeout = poll_once PollError ∧
  poll_once PollTimeout ≠ Return (A := list (option Msg)) EXIT_NO_DATA.
Proof. repeat split. discriminate. Qed.

(** C6 (amended). In the version that polls in a loop (20140510): when the
    loop is about to poll and [poll()] times out while no record has been
    accepted, [main] exits with [EXIT_NO_DATA], which is 3 and not the
    connection-error code, and prints nothing; when [poll()] fails
    instead, [main] exits with [EXIT_CONNECTION_ERR], which is 2, whatever
    was collected.  In the single-poll revision a timeout and a failure of
    the one [poll()] both return the error code 1. *)
Theorem poll_timeout_is_no_data `{TextShaping}
    (cfg : Config) (pre rest : list PollResult) (st : Polling) :
  poll_loop startPolling pre = Awaiting st →
  (nodes (ingest st) = [] →
   main cfg (pre ++ PollTimeout :: rest) = Exited EXIT_NO_DATA []) ∧
  main cfg (pre ++ PollError :: rest) = Exited EXIT_CONNECTION_ERR [] ∧
  EXIT_NO_DATA = 3%Z ∧ EXIT_CONNECTION_ERR = 2%Z ∧
  poll_once PollTimeout = Return 1 ∧ poll_once PollError = Return 1.
Proof.
  intros Hpre. unfold main.
  rewrite !(poll_loop_app pre _ _ _ Hpre). simpl.
  repeat split. intros ->. apply report_no_nodes.
Qed.

Lemma poll_timeout_is_no_data_witness :
  main (H := plainShaping) tableConfig
    ([PollReady [Some (OtherMsg 7)]; PollReady []] ++ PollTimeout :: [])
    = Exited 3 [] ∧
  main (H := plainShaping) tableConfig
    ([PollReady [Some (OtherMsg 7)]; PollReady []] ++ PollError :: [])
    = Exited 2 [].
Proof.
  destruct (poll_timeout_is_no_data (H := plainShaping) tableConfig
              [PollReady [Some (OtherMsg 7)]; PollReady []] []
              (mkPolling startIngest 2) eq_refl) as (H1 & H2 & _).
  split; [apply H1; reflexivity | exact H2].
Defined.

(** The loop of version 20140705 leaves in the same two ways. *)
Lemma poll_loop_0705_timeout_error pre rest st :
  poll_loop_0705 startIngest pre = Awaiting st →
  poll_loop_0705 startIngest (pre ++ PollTimeout :: rest)
    = Finished (nodes (ingest st)) ∧
  poll_loop_0705 startIngest (pre ++ PollError :: rest)
    = Returned EXIT_CONNECTION_ERR.
Proof.
  intros Hpre. rewrite !(poll_loop_0705_app pre _ _ _ Hpre). split; reflexivity.
Qed.

(** C7. When the loop is about to poll, the channel becomes readable and,
    after any messages [before] that let the loop go on, hands out an end
    message, [main] returns [EXIT_CONNECTION_ERR] at once: whatever
    records [ing] holds by then, nothing is printed on [stdout], and what
    the channel or [poll()] would deliver next plays no part. *)
Theorem end_message_is_fatal `{TextShaping}
    (cfg : Config) (pre rest : list PollResult) (st : Polling)
    (before after : list (option Msg)) (ing : Ingest) :
  poll_loop startPolling pre = Awaiting st →
  drain (mkIngest (nodes (ingest st)) (hostIdMax (ingest st)) false) before
    = Next ing →
  main cfg (pre ++ PollReady (before ++ Some EndMsg :: after) :: rest)
    = Exited EXIT_CONNECTION_ERR [] ∧
  EXIT_CONNECTION_ERR = 2%Z.
Proof.
  intros Hpre Hbefore. split; [|reflexivity]. unfold main.
  rewrite (poll_loop_app pre _ _ _ Hpre). cbn [poll_loop].
  rewrite drain_app, Hbefore. reflexivity.
Qed.

Lemma end_message_is_fatal_witness :
  main (H := plainShaping) tableConfig
    ([PollReady [Some (MonStatsMsg 1 blob_alpha)]] ++
     PollReady ([Some (MonStatsMsg 2 blob_beta)] ++ Some EndMsg :: [Some (OtherMsg 7)])
     :: [PollTimeout])
    = Exited 2 [] ∧
  EXIT_CONNECTION_ERR = 2%Z.
Proof.
  eapply (end_message_is_fatal (H := plainShaping) tableConfig
            [PollReady [Some (MonStatsMsg 1 blob_alpha)]] [PollTimeout]).
  - vm_compute. reflexivity.
  - vm_compute. reflexivity.
Defined.

(** The same in the loop of version 20140705. *)
Lemma poll_loop_0705_end pre rest st before after ing :
  poll_loop_0705 startIngest pre = Awaiting st →
  drain (mkIngest (nodes (ingest st)) (hostIdMax (ingest st)) false) before
    = Next ing →
  poll_loop_0705 startIngest
    (pre ++ PollReady (before ++ Some EndMsg :: after) :: rest)
    = Returned EXIT_CONNECTION_ERR.
Proof.
  intros Hpre Hbefore. rewrite (poll_loop_0705_app pre _ _ _ Hpre).
  cbn [poll_loop_0705]. rewrite drain_app, Hbefore. reflexivity.
Qed.

(** ** The totals *)

Lemma coreCount_fold ns (acc : N) :
  (acc < UINT32)%N →
  fold_left
    (λ (count : N) (node : NodeInfo),
       if negb (m_noRemote node) && negb (m_offline node)
       then ((count + m_maxJobs node) mod UINT32)%N
       else count)
    ns acc
  = ((acc + core_sum ns) mod UINT32)%N.
Proof.
  assert (Hpos : UINT32 ≠ 0%N) by (vm_compute; discriminate).
  revert acc. induction ns as [|n ns IH]; intros acc Hacc; simpl.
  - unfold core_sum. simpl. rewrite N.add_0_r, N.mod_small; [reflexivity|exact Hacc].
  - unfold core_sum. simpl. unfold counted at 1.
    destruct (negb (m_noRemote n) && negb (m_offline n)); simpl.
    + rewrite IH by (apply N.mod_lt; exact Hpos).
      fold (core_sum ns). rewrite N.Div0.add_mod_idemp_l.
      f_equal. lia.
    + rewrite IH by exact Hacc. reflexivity.
Qed.

Lemma coreCount_mod ns : coreCount ns = (core_sum ns mod UINT32)%N.
Proof.
  unfold coreCount. rewrite coreCount_fold by (vm_compute; reflexivity).
  reflexivity.
Qed.


(** C3, as the specification states it, fails: three accepted nodes of
    [INT_MAX] cores each add up to 6442450941, and [coreCount], a
    [uint32_t], holds 2147483645. *)
Lemma coreCount_wraps :
  poll_loop startPolling big_polls = Finished [big_node 1; big_node 2; big_node 3] ∧
  core_sum [big_node 1; big_node 2; big_node 3] = 6442450941%N ∧
  coreCount [big_node 1; big_node 2; big_node 3] = 2147483645%N ∧
  coreCount [big_node 1; big_node 2; big_node 3]
    ≠ core_sum [big_node 1; big_node 2; big_node 3].
Proof. vm_compute. repeat split; discriminate. Qed.

(** C3 (amended). For every record set and every setting of the filter
    flags, [coreCount] is the sum of [maxJobs] over exactly the records
    with [noRemote = false] and [offline = false], reduced modulo [2^32];
    it is that sum itself whenever the sum is below [2^32].  The filter
    flags are no input of it: in brief mode [main] prints this one number
    under every setting of the flags that leaves a record to show. *)
Theorem coreCount_is_sum_mod `{TextShaping} (cfg : Config) (ns : list NodeInfo) :
  coreCount ns = (core_sum ns mod 2 ^ 32)%N ∧
  ((core_sum ns < 2 ^ 32)%N → coreCount ns = core_sum ns) ∧
  core_sum ns
    = foldr N.add 0%N
        (map m_maxJobs
           (List.filter (λ n, negb (m_noRemote n) && negb (m_offline n)) ns)) ∧
  (brief cfg = true →
   report cfg ns = Exited EXIT_NO_DATA [] ∨
   report cfg ns = Exited EXIT_OK (to_string (core_sum ns mod 2 ^ 32) ++ [LF])).
Proof.
  split; [apply coreCount_mod|].
  split; [intros Hlt; rewrite coreCount_mod; apply N.mod_small; exact Hlt|].
  split; [reflexivity|].
  intros Hb. unfold report. destruct (_ || _); [left; reflexivity|].
  rewrite Hb, coreCount_mod. right. reflexivity.
Qed.

(** ** The table renderer *)

(** *** Counting loops *)


Lemma for_each_S {S} n (body : nat → S → S) s :
  for_each (Datatypes.S n) body s = body n (for_each n body s).
Proof. unfold for_each. rewrite seq_S, foldl_app. reflexivity. Qed.

(** The invariant rule of a counting loop. *)
Lemma for_each_ind {S} (P : nat → S → Prop) n (body : nat → S → S) s :
  P 0 s →
  (∀ i s', i < n → P i s' → P (Datatypes.S i) (body i s')) →
  P n (for_each n body s).
Proof.
  intros H0 Hstep. induction n as [|n IH]; [exact H0|].
  rewrite for_each_S. apply Hstep; [lia|]. apply IH.
  intros i s' Hi. apply Hstep. lia.
Qed.

Lemma for_each_ext {S} n (f g : nat → S → S) s :
  (∀ i s', i < n → f i s' = g i s') → for_each n f s = for_each n g s.
Proof.
  intros Hfg. induction n as [|n IH]; [reflexivity|].
  rewrite !for_each_S, IH by (intros; apply Hfg; lia). apply Hfg. lia.
Qed.

Lemma at_lookup {A} (v : list A) i d x : v !! i = Some x → at_ v i d = x.
Proof. intros Hl. unfold at_. rewrite nth_lookup, Hl. reflexivity. Qed.

(** *** Appending loops are joins *)

Lemma join_snoc sep parts p :
  join sep (parts ++ [p]) =
  match parts with
  | [] => p
  | _ => join sep parts ++ sep ++ p
  end.
Proof.
  destruct parts as [|q parts]; simpl; [apply app_nil_r|].
  rewrite map_app, concat_app. simpl. rewrite app_nil_r, <- !app_assoc.
  reflexivity.
Qed.

(** A join of [n] parts holds [n - 1] separators. *)
Lemma join_length sep parts :
  length (join sep parts)
  = sum_list (map length parts) + (length parts - 1) * length sep.
Proof.
  destruct parts as [|p parts]; [reflexivity|]. simpl.
  rewrite length_app, Nat.sub_0_r. rewrite <- Nat.add_assoc. f_equal.
  induction parts as [|q parts IH]; [reflexivity|]. simpl.
  rewrite !length_app, IH. lia.
Qed.

Lemma join_loop (cells : nat → list ascii) sep n table :
  for_each n
    (λ c table, (if 0 <? c then table ++ sep else table) ++ cells c) table
  = table ++ join sep (map cells (seq 0 n)).
Proof.
  induction n as [|n IH]; [simpl; rewrite app_nil_r; reflexivity|].
  rewrite for_each_S, IH, seq_S, map_app. simpl. rewrite join_snoc.
  destruct n as [|n]; [simpl; rewrite app_nil_r; reflexivity|].
  change (0 <? S n) with true. cbv iota.
  destruct (map cells (seq 0 (S n))) eqn:E; [discriminate|].
  rewrite <- !app_assoc. reflexivity.
Qed.

Lemma repeat_loop (h : list ascii) n table :
  for_each n (λ _ table, table ++ h) table = table ++ concat (replicate n h).
Proof.
  induction n as [|n IH]; [simpl; rewrite app_nil_r; reflexivity|].
  rewrite for_each_S, IH.
  replace (S n) with (n + 1) by lia.
  rewrite replicate_add, concat_app. simpl. rewrite app_nil_r, <- app_assoc.
  reflexivity.
Qed.

Lemma concat_loop (g : nat → list ascii) n table :
  for_each n (λ r table, table ++ g r) table
  = table ++ concat (map g (seq 0 n)).
Proof.
  induction n as [|n IH]; [simpl; rewrite app_nil_r; reflexivity|].
  rewrite for_each_S, IH, seq_S, map_app, concat_app. simpl.
  rewrite app_nil_r, <- app_assoc. reflexivity.
Qed.

Lemma cell_index_lt C R c r : c < C → r ≤ R → C * r + c < C * (R + 1).
Proof. intros. nia. Qed.

Lemma cell_index_inj C c r c' r' :
  c < C → c' < C → C * r + c = C * r' + c' → r = r' ∧ c = c'.
Proof.
  intros Hc Hc' Heq.
  destruct (Nat.lt_trichotomy r r') as [Hlt|[->|Hlt]]; [exfalso; nia | lia | exfalso; nia].
Qed.

Section RenderTable.
Context `{TextShaping}.
Variables (header : list ColumnHeader) (strings : list (list ascii)).
Variables (plain asciiOnly : bool).

Local Abbreviation C := (length header).
Local Abbreviation R := (length strings / length header).
Local Abbreviation cellText := (cell_text header strings plain asciiOnly).
Local Abbreviation cellWidth := (cell_width header strings plain asciiOnly).
Local Abbreviation colMax := (col_max header strings plain asciiOnly).
Local Abbreviation colWidth := (col_width header strings plain asciiOnly).
Local Abbreviation paddedCell := (padded header strings plain asciiOnly).
Local Abbreviation Measured := (measured header strings plain asciiOnly).
Local Abbreviation PaddedUpto := (padded_upto header strings plain asciiOnly).

Lemma col_max_S c j : colMax c (S j) = colMax c j `max` cellWidth c j.
Proof. unfold col_max. rewrite seq_S, foldl_app. reflexivity. Qed.

(** *** First pair of loops *)

Lemma measured_start :
  Measured 0 0
    (mkCells (replicate (C * (R + 1)) []) (replicate (C * (R + 1)) 0)
       (replicate C 0)).
Proof.
  unfold measured. simpl. rewrite !length_replicate.
  repeat split; [lia..|].
  intros c Hc. rewrite lookup_replicate_2 by exact Hc.
  destruct (c =? 0); reflexivity.
Qed.

Lemma measured_step k j t :
  k < C → j ≤ R → Measured k j t →
  Measured k (S j) (measure header strings plain asciiOnly k j t).
Proof.
  intros Hk Hj (Hd & Hl & Hm & Hcells & Hmax).
  pose proof (cell_index_lt C R k j Hk Hj) as Hlt.
  unfold measure.
  destruct (shape header strings plain asciiOnly k j) as [res len] eqn:Hs.
  assert (Hres : cellText k j = res) by (unfold cell_text; rewrite Hs; reflexivity).
  assert (Hlen : cellWidth k j = len) by (unfold cell_width; rewrite Hs; reflexivity).
  unfold measured. simpl. rewrite !length_insert.
  split; [exact Hd|]. split; [exact Hl|]. split; [exact Hm|]. split.
  - intros c r Hc Hr Hdone.
    destruct (decide (C * j + k = C * r + c)) as [Heq|Hne].
    + apply cell_index_inj in Heq as [<- <-]; [|assumption..].
      rewrite !list_lookup_insert_eq by lia. rewrite Hres, Hlen. auto.
    + rewrite !list_lookup_insert_ne by exact Hne.
      apply Hcells; [assumption..|].
      destruct Hdone as [?|[-> Hrj]]; [left; assumption|].
      right. split; [reflexivity|].
      assert (r ≠ j) by (intros ->; apply Hne; reflexivity). lia.
  - intros c Hc. destruct (decide (k = c)) as [<-|Hne].
    + rewrite list_lookup_insert_eq by lia.
      rewrite (at_lookup _ _ _ _ (Hmax k Hk)).
      rewrite Nat.ltb_irrefl, Nat.eqb_refl, col_max_S, Hlen. reflexivity.
    + rewrite list_lookup_insert_ne by exact Hne. rewrite (Hmax c Hc).
      destruct (c <? k); [reflexivity|].
      destruct (Nat.eqb_spec c k) as [->|_]; [congruence|reflexivity].
Qed.

Lemma measured_next k t : Measured k (R + 1) t → Measured (S k) 0 t.
Proof.
  intros (Hd & Hl & Hm & Hcells & Hmax).
  unfold measured. split; [exact Hd|]. split; [exact Hl|]. split; [exact Hm|]. split.
  - intros c r Hc Hr Hdone. apply Hcells; [assumption..|]. lia.
  - intros c Hc. rewrite (Hmax c Hc).
    destruct (Nat.ltb_spec c k), (Nat.eqb_spec c k), (Nat.ltb_spec c (S k)),
      (Nat.eqb_spec c (S k)); try lia; reflexivity.
Qed.

Lemma measured_column k t :
  k < C → Measured k 0 t →
  Measured (S k) 0
    (for_each (R + 1) (λ r t, measure header strings plain asciiOnly k r t) t).
Proof.
  intros Hk Ht. apply measured_next.
  apply (for_each_ind (λ j t, Measured k j t)); [exact Ht|].
  intros j t' Hj. apply measured_step; [exact Hk | lia].
Qed.

Lemma measured_all t0 :
  Measured 0 0 t0 →
  Measured C 0
    (for_each C (λ c t,
       for_each (R + 1) (λ r t, measure header strings plain asciiOnly c r t) t) t0).
Proof.
  intros Ht. apply (for_each_ind (λ k t, Measured k 0 t)); [exact Ht|].
  intros k t' Hk. apply measured_column. exact Hk.
Qed.

(** *** Second pair of loops *)

Lemma measured_padded_start t : Measured C 0 t → PaddedUpto 0 0 t.
Proof.
  intros (Hd & _ & _ & Hcells & Hmax). split; [exact Hd|]. split.
  - intros c r Hc Hr. simpl. destruct (c =? 0); simpl; apply Hcells; auto.
  - intros c Hc. rewrite (Hmax c Hc).
    destruct (Nat.ltb_spec c C); [reflexivity|lia].
Qed.

Lemma padded_step k j t :
  k < C → j ≤ R → PaddedUpto k j t → PaddedUpto k (S j) (pad header k j t).
Proof.
  intros Hk Hj (Hd & Hcells & Hmax).
  pose proof (cell_index_lt C R k j Hk Hj) as Hlt.
  unfold pad. destruct (Hcells k j Hk Hj) as [Hdat Hlen].
  rewrite Nat.ltb_irrefl, Nat.eqb_refl, Nat.ltb_irrefl in Hdat. simpl in Hdat.
  rewrite (at_lookup _ _ _ _ (Hmax k Hk)), (at_lookup _ _ _ _ Hdat),
    (at_lookup _ _ _ _ Hlen).
  fold (paddedCell k j).
  split; [simpl; rewrite length_insert; exact Hd|]. split; [|exact Hmax].
  intros c r Hc Hr. simpl. destruct (Hcells c r Hc Hr) as [Hdat' Hlen'].
  split; [|exact Hlen'].
  destruct (decide (C * j + k = C * r + c)) as [Heq|Hne].
  - apply cell_index_inj in Heq as [<- <-]; [|assumption..].
    rewrite list_lookup_insert_eq by lia.
    rewrite Nat.ltb_irrefl, Nat.eqb_refl.
    destruct (Nat.ltb_spec j (S j)); [reflexivity|lia].
  - rewrite list_lookup_insert_ne by exact Hne. rewrite Hdat'.
    destruct (Nat.ltb_spec c k); [reflexivity|]. simpl.
    destruct (Nat.eqb_spec c k) as [->|_]; [|reflexivity]. simpl.
    assert (r ≠ j) by (intros ->; apply Hne; reflexivity).
    destruct (Nat.ltb_spec r j), (Nat.ltb_spec r (S j)); try lia; reflexivity.
Qed.

Lemma padded_next k t : PaddedUpto k (R + 1) t → PaddedUpto (S k) 0 t.
Proof.
  intros (Hd & Hcells & Hmax). split; [exact Hd|]. split; [|exact Hmax].
  intros c r Hc Hr. destruct (Hcells c r Hc Hr) as [Hdat Hlen].
  split; [|exact Hlen]. rewrite Hdat.
  destruct (Nat.ltb_spec c k), (Nat.eqb_spec c k), (Nat.ltb_spec c (S k)),
    (Nat.eqb_spec c (S k)), (Nat.ltb_spec r (R + 1)); simpl; try lia; try reflexivity.
Qed.

Lemma padded_all t : PaddedUpto 0 0 t →
  PaddedUpto C 0
    (for_each C (λ c t, for_each (R + 1) (λ r t, pad header c r t) t) t).
Proof.
  intros Ht. apply (for_each_ind (λ k t, PaddedUpto k 0 t)); [exact Ht|].
  intros k t' Hk Ht'. apply padded_next.
  apply (for_each_ind (λ j t, PaddedUpto k j t)); [exact Ht'|].
  intros j t'' Hj. apply padded_step; [exact Hk | lia].
Qed.
(** *** Last pair of loops *)

Lemma row_loop t r table :
  PaddedUpto C 0 t → r ≤ R →
  for_each C
    (λ c table,
       (if 0 <? c then table ++ vert_sep plain asciiOnly else table)
       ++ at_ (data t) (C * r + c) []) table
  = table ++ join (vert_sep plain asciiOnly)
               (row_cells header strings plain asciiOnly r).
Proof.
  intros (_ & Hcells & _) Hr.
  rewrite (for_each_ext C _
    (λ c table, (if 0 <? c then table ++ vert_sep plain asciiOnly else table)
                ++ paddedCell c r)).
  - apply join_loop.
  - intros c s' Hc. cbv zeta. f_equal.
    destruct (Hcells c r Hc Hr) as [Hdat _].
    destruct (Nat.ltb_spec c C); [|lia]. simpl in Hdat.
    apply at_lookup. exact Hdat.
Qed.

Lemma rule_loop t table :
  PaddedUpto C 0 t →
  for_each C
    (λ c table,
       for_each (at_ (colMaxLens t) c 0)
         (λ _ table, table ++ hor_line asciiOnly)
         (if 0 <? c then table ++ cross_sep asciiOnly else table)) table
  = table ++ join (cross_sep asciiOnly)
               (map (λ c, concat (replicate (colWidth c) (hor_line asciiOnly)))
                    (seq 0 C)).
Proof.
  intros (_ & _ & Hmax).
  rewrite (for_each_ext C _
    (λ c table, (if 0 <? c then table ++ cross_sep asciiOnly else table)
                ++ concat (replicate (colWidth c) (hor_line asciiOnly)))).
  - apply join_loop.
  - intros c s' Hc. cbv zeta. rewrite repeat_loop.
    rewrite (at_lookup _ _ _ _ (Hmax c Hc)). reflexivity.
Qed.

Lemma emit_row_line t r table :
  PaddedUpto C 0 t → r ≤ R →
  emit_row header plain asciiOnly t r table
  = table ++ row_line header strings plain asciiOnly r ++
    (if (r =? 0) && negb plain
     then rule_line header strings plain asciiOnly else []).
Proof.
  intros Ht Hr. unfold emit_row. cbv zeta.
  rewrite (row_loop t r table Ht Hr). unfold row_line.
  destruct ((r =? 0) && negb plain).
  - rewrite (rule_loop t _ Ht). unfold rule_line.
    rewrite <- !app_assoc. reflexivity.
  - rewrite app_nil_r, <- app_assoc. reflexivity.
Qed.

Lemma renderTable_is_layout :
  header ≠ [] →
  renderTable header strings plain asciiOnly
  = Some (layout header strings plain asciiOnly).
Proof.
  intros Hne. unfold renderTable.
  destruct (Nat.eqb_spec C 0) as [H0|_].
  { destruct header; [congruence | discriminate]. }
  cbv zeta. f_equal.
  pose proof (padded_all _ (measured_padded_start _ (measured_all _ measured_start)))
    as Ht2.
  set (t2 := for_each C _ (for_each C _ _)) in *.
  rewrite (for_each_ext (R + 1) _
    (λ r table, table ++
       (row_line header strings plain asciiOnly r ++
        (if (r =? 0) && negb plain
         then rule_line header strings plain asciiOnly else [])))).
  2: { intros r s' Hr. apply emit_row_line; [exact Ht2 | lia]. }
  rewrite concat_loop. simpl. unfold layout.
  replace (R + 1) with (S R) by lia. rewrite <- cons_seq. simpl.
  rewrite <- app_assoc. f_equal.
  assert (Hrest :
    map (λ r, row_line header strings plain asciiOnly r ++
              (if (r =? 0) && negb plain
               then rule_line header strings plain asciiOnly else []))
        (seq 1 R)
    = map (row_line header strings plain asciiOnly) (seq 1 R)).
  { apply map_ext_in. intros r Hr. apply in_seq in Hr.
    destruct (Nat.eqb_spec r 0); [lia|]. simpl. apply app_nil_r. }
  rewrite Hrest. destruct plain; reflexivity.
Qed.

(** *** Widths and padding *)

Lemma col_max_upper c n r : r < n → cellWidth c r ≤ colMax c n.
Proof.
  induction n as [|n IH]; intros Hr; [lia|].
  rewrite col_max_S. destruct (decide (r = n)) as [->|Hne]; [lia|].
  specialize (IH ltac:(lia)). lia.
Qed.

Lemma col_max_attained c n : 0 < n → ∃ r, r < n ∧ cellWidth c r = colMax c n.
Proof.
  induction n as [|n IH]; intros Hn; [lia|].
  rewrite col_max_S. destruct (decide (n = 0)) as [->|Hpos].
  - exists 0. split; [lia|]. unfold col_max. simpl. lia.
  - destruct (IH ltac:(lia)) as (r & Hr & Heq).
    destruct (Nat.max_spec (colMax c n) (cellWidth c n)) as [[_ ->]|[_ ->]].
    + exists n. split; [lia | reflexivity].
    + exists r. split; [lia | exact Heq].
Qed.

Lemma pad_str_shape align maxLen len str :
  len ≤ maxLen →
  ∃ before after,
    pad_str align maxLen len str
      = replicate before space ++ str ++ replicate after space ∧
    before + len + after = maxLen.
Proof.
  intros Hle. unfold pad_str. destruct (Nat.ltb_spec len maxLen) as [Hlt|Hge].
  - destruct align.
    + exists 0, (maxLen - len). split; [reflexivity | lia].
    + exists (maxLen - len), 0. simpl. rewrite app_nil_r. split; [reflexivity | lia].
    + exists ((maxLen - len) / 2), (maxLen - len - (maxLen - len) / 2).
      split; [reflexivity|].
      pose proof (Nat.Div0.div_le_upper_bound (maxLen - len) 2 (maxLen - len)).
      assert ((maxLen - len) / 2 ≤ maxLen - len)
        by (apply Nat.Div0.div_le_upper_bound; lia).
      lia.
  - exists 0, 0. simpl. rewrite app_nil_r. split; [reflexivity | lia].
Qed.

Lemma shape_plain_length c r :
  treatAsUnicode (at_ header c noHeader) = false →
  length (cellText c r) = cellWidth c r.
Proof.
  intros Hu. unfold cell_text, cell_width, shape. rewrite Hu.
  destruct (negb plain); [|reflexivity].
  destruct (c =? 0); [reflexivity|].
  destruct (c =? C - 1); [|reflexivity].
  simpl. rewrite length_app. simpl. lia.
Qed.

Lemma strings_in_range c r :
  c < C → 1 ≤ r → r ≤ R → is_Some (strings !! (C * (r - 1) + c)).
Proof.
  intros Hc Hr1 Hr. apply lookup_lt_is_Some.
  pose proof (Nat.Div0.mul_div_le (length strings) C). nia.
Qed.

(** C8 (amended). For every non-empty header list and every row list (of
    a length that is a multiple of the header count or not),
    [renderTable] returns the table [layout]: the header line, the rule
    under it unless [plain], then one line per row.  Every line is the
    [columnCount] padded cells of its row joined by the column separator,
    so all lines hold [columnCount - 1] separators: a line has the chars
    of its cells, those of [columnCount - 1] separators and the line
    feed.  The width of a column is the largest measured width, margin
    included, among its header cell and its row cells, and it is
    attained.  Every cell is padded with spaces to exactly that width:
    the spaces added and the measured width add up to the column width,
    and in a column whose text is not treated as Unicode the padded cell
    has exactly that many chars.  Every cell read from the rows lies
    inside the vector. *)
Theorem renderTable_layout :
  header ≠ [] →
  renderTable header strings plain asciiOnly
    = Some (layout header strings plain asciiOnly) ∧
  layout header strings plain asciiOnly
    = row_line header strings plain asciiOnly 0 ++
      (if plain then [] else rule_line header strings plain asciiOnly) ++
      concat (map (row_line header strings plain asciiOnly) (seq 1 R)) ∧
  (∀ r, row_line header strings plain asciiOnly r
          = join (vert_sep plain asciiOnly)
              (row_cells header strings plain asciiOnly r) ++ [LF] ∧
        row_cells header strings plain asciiOnly r
          = map (λ c, paddedCell c r) (seq 0 C) ∧
        length (row_cells header strings plain asciiOnly r) = C ∧
        length (row_line header strings plain asciiOnly r)
          = sum_list (map length (row_cells header strings plain asciiOnly r))
            + (C - 1) * length (vert_sep plain asciiOnly) + 1) ∧
  (∀ c, (∀ r, r ≤ R → cellWidth c r ≤ colWidth c) ∧
        (∃ r, r ≤ R ∧ cellWidth c r = colWidth c)) ∧
  (∀ c r, r ≤ R →
     ∃ before after,
       paddedCell c r
         = replicate before space ++ cellText c r ++ replicate after space ∧
       before + cellWidth c r + after = colWidth c) ∧
  (∀ c r, r ≤ R → treatAsUnicode (at_ header c noHeader) = false →
     length (paddedCell c r) = colWidth c) ∧
  (∀ c r, c < C → 1 ≤ r → r ≤ R → is_Some (strings !! (C * (r - 1) + c))).
Proof.
  intros Hne.
  assert (Hupper : ∀ c r, r ≤ R → cellWidth c r ≤ colWidth c).
  { intros c r Hr. apply col_max_upper. lia. }
  assert (Hpad : ∀ c r, r ≤ R →
     ∃ before after,
       paddedCell c r
         = replicate before space ++ cellText c r ++ replicate after space ∧
       before + cellWidth c r + after = colWidth c).
  { intros c r Hr. apply pad_str_shape, Hupper, Hr. }
  split; [apply renderTable_is_layout, Hne|].
  split; [reflexivity|].
  split.
  { intros r.
    assert (Hcells : length (row_cells header strings plain asciiOnly r) = C).
    { unfold row_cells. rewrite length_map, length_seq. reflexivity. }
    split; [reflexivity|]. split; [reflexivity|]. split; [exact Hcells|].
    unfold row_line. rewrite length_app, join_length, Hcells. reflexivity. }
  split.
  { intros c. split; [intros r; apply Hupper|].
    destruct (col_max_attained c (R + 1) ltac:(lia)) as (r & Hr & Heq).
    exists r. split; [lia | exact Heq]. }
  split; [exact Hpad|].
  split; [|exact strings_in_range].
  intros c r Hr Hu. destruct (Hpad c r Hr) as (before & after & -> & Hsum).
  rewrite !length_app, !length_replicate, (shape_plain_length c r Hu). lia.
Qed.
End RenderTable.

(** The outcomes that stand for a callee that does not return and for an
    undefined division never arise: [create] always returns or throws,
    and the header of [main] has seven columns. *)
Lemma on_message_returns st msg : on_message st msg ≠ NoReturn.
Proof.
  destruct msg as [[hostid statmsg| |ty]|]; simpl; try discriminate.
  pose proof (create_total hostid statmsg) as Ht.
  destruct (create hostid statmsg) as [[r|]| |]; try discriminate; [|congruence].
  destruct (_ <? _)%N; discriminate.
Qed.

Lemma drain_returns msgs st : drain st msgs ≠ NoReturn.
Proof.
  revert st. induction msgs as [|m msgs IH]; intros st; simpl; [discriminate|].
  pose proof (on_message_returns st m) as Hm.
  destruct (on_message st m); simpl; [apply IH | discriminate | discriminate | congruence].
Qed.

Lemma poll_loop_not_stuck polls st : poll_loop st polls ≠ Stuck.
Proof.
  revert st. induction polls as [|p polls IH]; intros st; simpl; [discriminate|].
  destruct p as [| |msgs]; try discriminate.
  pose proof (drain_returns msgs
    (mkIngest (nodes (ingest st)) (hostIdMax (ingest st)) false)) as Hd.
  destruct (drain _ msgs); try discriminate; [|congruence].
  destruct (_ <? _); [apply IH | discriminate].
Qed.

Lemma report_defined `{TextShaping} cfg ns : ∃ code out, report cfg ns = Exited code out.
Proof.
  unfold report. destruct (_ || _); [eauto|].
  destruct (brief cfg); [eauto|]. destruct (negb (noTable cfg)); [|eauto].
  rewrite renderTable_is_layout by discriminate. eauto.
Qed.

Lemma main_defined `{TextShaping} cfg polls :
  main cfg polls ≠ Hung ∧ main cfg polls ≠ Undefined.
Proof.
  unfold main. pose proof (poll_loop_not_stuck polls startPolling) as Hs.
  destruct (poll_loop startPolling polls) as [st|ns|code|e|];
    try (split; discriminate); [|congruence].
  destruct (report_defined cfg ns) as (code & out & ->). split; discriminate.
Qed.

(** C8, as the specification states it, reaches the empty header list, for
    which [renderTable] divides by a zero [columnCount] and renders
    nothing. *)
Lemma renderTable_no_header :
  renderTable (H := plainShaping) [] [] false false = None.
Proof. reflexivity. Qed.

Lemma renderTable_layout_witness :
  renderTable (H := plainShaping) sample_header sample_strings false true
    = Some (layout (H := plainShaping) sample_header sample_strings false true).
Proof.
  apply (renderTable_layout (H := plainShaping) sample_header sample_strings false true).
  discriminate.
Defined.

(** The sample table as text, bordered and plain (scenario F: single
    spaces between the columns, no border glyph, no rule). *)
Example sample_table_bordered :
  renderTable (H := plainShaping) sample_header sample_strings false true
  = Some (blob [" Node # | Name  ";
                "--------+-------";
                "      1 | alpha ";
                "     12 | b     "]).
Proof. vm_compute. reflexivity. Qed.

Example sample_table_plain :
  renderTable (H := plainShaping) sample_header (firstn 2 sample_strings) true false
  = Some (blob ["Node # Name ";
                "     1 alpha"]).
Proof. vm_compute. reflexivity. Qed.

(** Scenario C: an offline node of 4 cores and an online node of 8 give
    8 cores and 2 nodes. *)
Example scenarioC :
  main (H := plainShaping) (mkConfig false true false true false false)
    [PollReady [Some (MonStatsMsg 1 blob_alpha); Some (MonStatsMsg 2 blob_beta)];
     PollTimeout]
  = Exited 0 (blob ["2 nodes, 8 cores total."]).
Proof. vm_compute. reflexivity. Qed.

(** * Further properties of the code *)

(** ** The parser *)

Lemma split_lines_nonempty s : split_lines s ≠ [].
Proof.
  destruct s as [|c s]; simpl; [discriminate|].
  destruct (Ascii.eqb c LF); [discriminate|].
  destruct (split_lines s); discriminate.
Qed.

Lemma split_lines_app a b :
  split_lines (a ++ LF :: b) = split_lines a ++ split_lines b.
Proof.
  induction a as [|c a IH]; simpl; [reflexivity|].
  destruct (Ascii.eqb c LF); [rewrite IH; reflexivity|].
  rewrite IH. pose proof (split_lines_nonempty a) as Hne.
  destruct (split_lines a); [congruence|reflexivity].
Qed.

Lemma split_lines_single l : LF ∉ l → split_lines l = [l].
Proof.
  intros Hl. apply split_lines_no_LF.
  destruct (index_of LF l) as [i|] eqn:E; [|reflexivity].
  exfalso. apply Hl. apply index_of_lookup in E.
  apply list_elem_of_lookup. eauto.
Qed.

Lemma bind_Ret {A} (m : Run A) : bind m Ret = m.
Proof. destruct m; reflexivity. Qed.

Lemma create_lines hostId stats :
  create hostId stats =
  if (hostId =? 0)%N then Ret None
  else bind (fold_lines (newNodeInfo hostId) (split_lines stats))
         (λ res, Ret (if isValid res then Some res else None)).
Proof. unfold create. rewrite scan_lines. reflexivity. Qed.

Lemma apply_line_ignored res l : ignored_line l → apply_line res l = Ret res.
Proof.
  unfold ignored_line, apply_line. destruct (parse_line l) as [[key value]|]; [|reflexivity].
  unfold recognized, assign. intros Hr.
  repeat (apply orb_false_elim in Hr as [Hr ?]).
  repeat match goal with H : bool_decide _ = false |- _ => rewrite H; clear H end.
  reflexivity.
Qed.

Lemma fold_lines_skip res ls1 l ls2 :
  ignored_line l → fold_lines res (ls1 ++ l :: ls2) = fold_lines res (ls1 ++ ls2).
Proof.
  intros Hl. rewrite !fold_lines_app. destruct (fold_lines res ls1); simpl; try reflexivity.
  rewrite (apply_line_ignored _ _ Hl). reflexivity.
Qed.

(** X1. A blob parses the same with and without a line feed at its
    end. *)
Theorem create_trailing_newline (hostId : N) (stats : list ascii) :
  create hostId (stats ++ [LF]) = create hostId stats.
Proof.
  rewrite !create_lines. destruct (hostId =? 0)%N; [reflexivity|].
  rewrite split_lines_app. change (split_lines []) with [[] : list ascii].
  rewrite (fold_lines_skip _ _ [] []) by exact I. rewrite app_nil_r. reflexivity.
Qed.

(** X2. A line without a colon, or with a key that is none of [name],
    [ip], [maxjobs], [noremote], [state], [platform], changes nothing:
    the blob with the line and the blob without it give the same result,
    be it a record, the empty pointer or an exception. *)
Theorem create_skips_ignored_line (hostId : N) (a l b : list ascii) :
  LF ∉ l → ignored_line l →
  create hostId (a ++ LF :: l ++ LF :: b) = create hostId (a ++ LF :: b).
Proof.
  intros Hlf Hl. rewrite !create_lines. destruct (hostId =? 0)%N; [reflexivity|].
  rewrite !split_lines_app, (split_lines_single l Hlf). simpl.
  rewrite (fold_lines_skip _ _ l _ Hl). reflexivity.
Qed.

Lemma create_skips_ignored_line_witness :
  create 1 (lit "name:a" ++ LF :: lit "Load: 12" ++ LF :: blob ["ip:1"; "maxjobs:2"; "platform:p"])
  = create 1 (lit "name:a" ++ LF :: blob ["ip:1"; "maxjobs:2"; "platform:p"]).
Proof.
  apply (create_skips_ignored_line 1 (lit "name:a") (lit "Load: 12")).
  - apply (bool_decide_unpack _). vm_compute. exact I.
  - vm_compute. reflexivity.
Defined.

Lemma index_of_app_first c k v : c ∉ k → index_of c (k ++ c :: v) = Some (length k).
Proof.
  induction k as [|x k IH]; simpl; intros Hk.
  - rewrite Ascii.eqb_refl. reflexivity.
  - apply not_elem_of_cons in Hk as [Hx Hk].
    destruct (Ascii.eqb_spec x c) as [->|_]; [congruence|].
    rewrite (IH Hk). reflexivity.
Qed.

Lemma parse_line_key_value k v :
  colon ∉ k → parse_line (k ++ colon :: v) = Some (toLower k, v).
Proof.
  intros Hk. unfold parse_line. rewrite (index_of_app_first _ _ _ Hk). simpl.
  rewrite take_app_length.
  replace (drop (S (length k)) (k ++ colon :: v)) with v; [reflexivity|].
  change (S (length k)) with (1 + length k). rewrite Nat.add_comm, <- drop_drop.
  rewrite drop_app_length. reflexivity.
Qed.

(** X3. The key of a line is what stands before its first colon, taken
    without regard to case, and the value is all that follows, further
    colons included: two lines whose keys differ in case only and whose
    values are the same are read alike. *)
Theorem create_key_case_insensitive (hostId : N) (a k1 k2 v b : list ascii) :
  colon ∉ k1 → colon ∉ k2 → LF ∉ k1 → LF ∉ k2 → LF ∉ v →
  toLower k1 = toLower k2 →
  create hostId (a ++ LF :: (k1 ++ colon :: v) ++ LF :: b)
  = create hostId (a ++ LF :: (k2 ++ colon :: v) ++ LF :: b).
Proof.
  intros Hc1 Hc2 Hl1 Hl2 Hv Hk. rewrite !create_lines.
  destruct (hostId =? 0)%N; [reflexivity|].
  assert (Hline : ∀ k, LF ∉ k → LF ∉ k ++ colon :: v).
  { intros k Hlk Hin. apply elem_of_app in Hin as [Hin|Hin]; [exact (Hlk Hin)|].
    apply elem_of_cons in Hin as [Hin|Hin]; [discriminate Hin | exact (Hv Hin)]. }
  rewrite !split_lines_app.
  rewrite (split_lines_single (k1 ++ colon :: v)) by (apply Hline; assumption).
  rewrite (split_lines_single (k2 ++ colon :: v)) by (apply Hline; assumption).
  rewrite !fold_lines_app. destruct (fold_lines _ (split_lines a)); simpl; try reflexivity.
  unfold apply_line. rewrite !parse_line_key_value, Hk by assumption. reflexivity.
Qed.

Lemma create_key_case_insensitive_witness :
  create 7 (lit "ip:1" ++ LF :: (lit "MaxJobs" ++ colon :: lit "4:x") ++ LF :: blob ["name:n"; "platform:p"])
  = create 7 (lit "ip:1" ++ LF :: (lit "maxJOBS" ++ colon :: lit "4:x") ++ LF :: blob ["name:n"; "platform:p"]).
Proof.
  apply (create_key_case_insensitive 7 (lit "ip:1") (lit "MaxJobs") (lit "maxJOBS") (lit "4:x")).
  1-5: apply (bool_decide_unpack _); vm_compute; exact I.
  vm_compute. reflexivity.
Defined.

(** *** When the parser throws *)

Lemma assign_throw name value res e :
  assign name value res = Throw e → name = lit "maxjobs" ∧ stoi value = Throw e.
Proof.
  unfold assign. repeat (case_bool_decide; try discriminate).
  destruct (stoi value) eqn:Hs; simpl; try discriminate. intros [= ->]. auto.
Qed.

Lemma apply_line_throw res l e :
  apply_line res l = Throw e →
  ∃ v, parse_line l = Some (lit "maxjobs", v) ∧ stoi v = Throw e.
Proof.
  unfold apply_line. destruct (parse_line l) as [[name value]|]; [|discriminate].
  intros Ha. apply assign_throw in Ha as [-> Hs]. eauto.
Qed.

Lemma apply_line_ret res l res' :
  apply_line res l = Ret res' →
  ∀ v, parse_line l = Some (lit "maxjobs", v) → ∃ z, stoi v = Ret z.
Proof.
  unfold apply_line. intros Ha v Hp. rewrite Hp in Ha. unfold assign in Ha.
  key_cases. destruct (stoi v) as [z| |]; simpl in Ha; try discriminate. eauto.
Qed.

Lemma apply_line_returns res l :
  (∀ v, parse_line l = Some (lit "maxjobs", v) → ∃ z, stoi v = Ret z) →
  ∃ res', apply_line res l = Ret res'.
Proof.
  unfold apply_line. destruct (parse_line l) as [[name value]|]; [|eauto].
  intros Hok. unfold assign.
  destruct (decide (name = lit "maxjobs")) as [->|Hm].
  - key_cases. destruct (Hok value eq_refl) as [z ->]. simpl. eauto.
  - rewrite (bool_decide_eq_false_2 (name = lit "maxjobs")) by exact Hm.
    repeat (case_bool_decide; [solve [eauto]|]). eauto.
Qed.

Lemma fold_lines_throw_iff ls res e :
  fold_lines res ls = Throw e ↔
  ∃ ls1 l ls2 v,
    ls = ls1 ++ l :: ls2 ∧
    parse_line l = Some (lit "maxjobs", v) ∧ stoi v = Throw e ∧
    ∀ l' v', l' ∈ ls1 → parse_line l' = Some (lit "maxjobs", v') →
             ∃ z, stoi v' = Ret z.
Proof.
  split.
  - revert res. induction ls as [|l ls IH]; intros res; simpl; [discriminate|].
    destruct (apply_line res l) as [res'| |] eqn:Ha; simpl.
    + intros Hf. destruct (IH _ Hf) as (ls1 & l0 & ls2 & v & -> & Hp & Hs & Hbefore).
      exists (l :: ls1), l0, ls2, v. repeat split; try assumption.
      intros l' v' Hin Hp'. apply elem_of_cons in Hin as [->|Hin].
      * eapply apply_line_ret; eassumption.
      * eapply Hbefore; eassumption.
    + intros [= ->]. apply apply_line_throw in Ha as (v & Hp & Hs).
      exists [], l, ls, v. repeat split; try assumption.
      intros l' v' Hin. apply elem_of_nil in Hin. contradiction.
    + discriminate.
  - intros (ls1 & l & ls2 & v & -> & Hp & Hs & Hbefore). revert res.
    induction ls1 as [|l1 ls1 IH]; intros res; simpl.
    + unfold apply_line. rewrite Hp. unfold assign. key_cases. rewrite Hs. reflexivity.
    + destruct (apply_line_returns res l1) as [res' ->].
      { intros v' Hp'. apply (Hbefore l1 v'); [apply list_elem_of_here | exact Hp']. }
      simpl. apply IH. intros l' v' Hin. apply Hbefore. apply list_elem_of_further, Hin.
Qed.

(** X4. [create] throws exactly when the host id is not zero and some
    line of the blob is a [maxjobs] entry from which [std::stoi] reads no
    [int]; the exception is that of the first such line, the lines after
    it being left unread. *)
Theorem create_throws_iff (hostId : N) (stats : list ascii) (e : exn) :
  create hostId stats = Throw e ↔
  hostId ≠ 0%N ∧
  ∃ ls1 l ls2 v,
    split_lines stats = ls1 ++ l :: ls2 ∧
    parse_line l = Some (lit "maxjobs", v) ∧ stoi v = Throw e ∧
    ∀ l' v', l' ∈ ls1 → parse_line l' = Some (lit "maxjobs", v') →
             ∃ z, stoi v' = Ret z.
Proof.
  rewrite create_lines.
  destruct (N.eqb_spec hostId 0) as [->|Hh].
  - split; [discriminate | intros [? _]; congruence].
  - rewrite <- (fold_lines_throw_iff (split_lines stats) (newNodeInfo hostId) e).
    destruct (fold_lines _ _) as [res| |]; simpl.
    + split; [discriminate | intros [_ ?]; discriminate].
    + split; [intros [= ->]; auto | intros [_ [= ->]]; reflexivity].
    + split; [discriminate | intros [_ ?]; discriminate].
Qed.

(** X5. The [while( true )] loop of [create] ends: on a blob of [n] chars
    it makes at most [n + 1] turns, so with any larger bound on the turns
    the scan gives the same result and never runs on. *)
Theorem scan_terminates (stats : list ascii) (res : NodeInfo) (fuel : nat) :
  length stats < fuel →
  scan fuel stats 0 res = scan (S (length stats)) stats 0 res ∧
  scan fuel stats 0 res ≠ Diverge.
Proof.
  intros Hfuel. rewrite !scan_fold by lia. split; [reflexivity|].
  apply fold_lines_total.
Qed.

Lemma scan_terminates_witness :
  scan 100 scenarioA 0 (newNodeInfo 1) = scan (S (length scenarioA)) scenarioA 0 (newNodeInfo 1) ∧
  scan 100 scenarioA 0 (newNodeInfo 1) ≠ Diverge.
Proof. apply (scan_terminates scenarioA (newNodeInfo 1) 100). vm_compute. lia. Defined.

(** ** The ingestion loop *)

Lemma on_message_flag st msg st' :
  on_message st msg = Next st' →
  (st' = st) ∨ (wasPollUseful st' = true ∧ nodes st' ≠ nodes st).
Proof.
  destruct msg as [[hostid statmsg| |ty]|]; simpl; try discriminate.
  - destruct (create hostid statmsg) as [[r|]| |]; try discriminate.
    + destruct (_ <? _)%N; intros [= <-]; [right|left; reflexivity].
      simpl. split; [reflexivity|]. intros Heq. symmetry in Heq.
      exact (app_singleton_neq _ _ Heq).
    + intros [= <-]. left. reflexivity.
  - intros [= <-]. left. reflexivity.
Qed.

Lemma on_message_flag_mono st msg st' :
  on_message st msg = Next st' → wasPollUseful st = true → wasPollUseful st' = true.
Proof.
  intros H Hf. apply on_message_flag in H as [->|[H _]]; assumption.
Qed.

Lemma drain_flag_mono msgs st st' :
  drain st msgs = Next st' → wasPollUseful st = true → wasPollUseful st' = true.
Proof.
  revert st. induction msgs as [|m msgs IH]; intros st; simpl.
  - intros [= <-]. auto.
  - intros H Hf. apply andThen_Next in H as (st1 & H1 & H2).
    eapply IH; [exact H2|]. eapply on_message_flag_mono; eassumption.
Qed.

(** A poll that ends with the flag down changed nothing. *)
Lemma drain_useless msgs st st' :
  drain st msgs = Next st' → wasPollUseful st' = false → st' = st.
Proof.
  revert st. induction msgs as [|m msgs IH]; intros st; simpl.
  - intros [= <-]. reflexivity.
  - intros H Hf. apply andThen_Next in H as (st1 & H1 & H2).
    destruct (on_message_flag _ _ _ H1) as [->|[Hflag _]]; [eauto|].
    rewrite (drain_flag_mono _ _ _ H2 Hflag) in Hf. discriminate.
Qed.

Lemma useless_poll_drain ing msgs :
  useless_poll ing msgs → drain (fresh ing) msgs = Next (fresh ing).
Proof.
  intros (ing' & Hd & Hf). rewrite Hd. f_equal. eapply drain_useless; eassumption.
Qed.

Lemma poll_loop_useless st msgs rest :
  useless_poll (ingest st) msgs →
  poll_loop st (PollReady msgs :: rest) =
  if S (uselessPollsInARow st) <? USELESS_POLLS_IN_A_ROW_MAX
  then poll_loop (mkPolling (fresh (ingest st)) (S (uselessPollsInARow st))) rest
  else Finished (nodes (ingest st)).
Proof.
  intros Hu. apply useless_poll_drain in Hu. unfold fresh in Hu. simpl.
  rewrite Hu. reflexivity.
Qed.

Lemma poll_loop_streak pre st0 st :
  uselessPollsInARow st0 < USELESS_POLLS_IN_A_ROW_MAX →
  poll_loop st0 pre = Awaiting st →
  uselessPollsInARow st < USELESS_POLLS_IN_A_ROW_MAX.
Proof.
  revert st0. induction pre as [|p pre IH]; intros st0 H0; simpl.
  - intros [= <-]. exact H0.
  - destruct p as [| |msgs]; try discriminate.
    destruct (drain _ msgs) as [ing| | |]; try discriminate.
    destruct (Nat.ltb_spec (if wasPollUseful ing then 0 else S (uselessPollsInARow st0))
                USELESS_POLLS_IN_A_ROW_MAX) as [Hlt|]; [|discriminate].
    apply IH. exact Hlt.
Qed.

(** X6. The useless-streak policy of version 20140510.  Wherever the loop
    stands waiting for a poll, fewer than three useless polls lie behind
    it in a row; three readable polls in a row that bring no accepted
    record end the loop with the records held so far, whatever [poll()]
    would report next; and two such polls after a useful one do not end
    it. *)
Theorem useless_streak_ends_loop
    (pre rest : list PollResult) (st : Polling) (m1 m2 m3 : list (option Msg)) :
  poll_loop startPolling pre = Awaiting st →
  useless_poll (ingest st) m1 → useless_poll (ingest st) m2 →
  useless_poll (ingest st) m3 →
  uselessPollsInARow st < 3 ∧
  poll_loop startPolling (pre ++ PollReady m1 :: PollReady m2 :: PollReady m3 :: rest)
    = Finished (nodes (ingest st)) ∧
  (uselessPollsInARow st = 0 →
   poll_loop startPolling (pre ++ [PollReady m1; PollReady m2])
     = Awaiting (mkPolling (fresh (ingest st)) 2)).
Proof.
  intros Hpre H1 H2 H3.
  assert (Hs : uselessPollsInARow st < 3).
  { eapply (poll_loop_streak pre startPolling); [|exact Hpre]. simpl. unfold USELESS_POLLS_IN_A_ROW_MAX. lia. }
  split; [exact Hs|].
  rewrite !(poll_loop_app pre _ _ _ Hpre).
  assert (Hstep : ∀ u m rest',
    useless_poll (ingest st) m →
    poll_loop (mkPolling (fresh (ingest st)) u) (PollReady m :: rest')
    = if S u <? 3 then poll_loop (mkPolling (fresh (ingest st)) (S u)) rest'
      else Finished (nodes (ingest st))).
  { intros u m rest' Hm.
    exact (poll_loop_useless (mkPolling (fresh (ingest st)) u) m rest' Hm). }
  assert (Hfirst : ∀ rest',
    poll_loop st (PollReady m1 :: rest')
    = if S (uselessPollsInARow st) <? 3
      then poll_loop (mkPolling (fresh (ingest st)) (S (uselessPollsInARow st))) rest'
      else Finished (nodes (ingest st))).
  { intros rest'. exact (poll_loop_useless st m1 rest' H1). }
  rewrite !Hfirst.
  destruct (uselessPollsInARow st) as [|[|[|u]]]; [| | |lia].
  - split; [|intros _]; rewrite !Hstep by assumption; reflexivity.
  - split; [|discriminate]. rewrite !Hstep by assumption. reflexivity.
  - split; [|discriminate]. reflexivity.
Qed.

Lemma useless_streak_ends_loop_witness :
  poll_loop startPolling
    ([PollReady [Some (MonStatsMsg 1 blob_alpha)]] ++
     PollReady [Some (MonStatsMsg 1 blob_alpha)] :: PollReady [] ::
     PollReady [Some (OtherMsg 3)] :: [PollReady [Some (MonStatsMsg 2 blob_beta)]])
  = Finished [alpha_node].
Proof.
  refine (proj1 (proj2 (useless_streak_ends_loop
    [PollReady [Some (MonStatsMsg 1 blob_alpha)]] _
    (mkPolling (mkIngest [alpha_node] 1 true) 0)
    [Some (MonStatsMsg 1 blob_alpha)] [] [Some (OtherMsg 3)] _ _ _ _))).
  - vm_compute. reflexivity.
  - eexists. split; vm_compute; reflexivity.
  - eexists. split; vm_compute; reflexivity.
  - eexists. split; vm_compute; reflexivity.
Defined.

(** X7. In version 20140705 one readable poll that brings no accepted
    record ends the loop at once with the records held so far. *)
Theorem first_useless_poll_ends_loop_0705
    (pre rest : list PollResult) (st : Polling) (msgs : list (option Msg)) :
  poll_loop_0705 startIngest pre = Awaiting st →
  useless_poll (ingest st) msgs →
  poll_loop_0705 startIngest (pre ++ PollReady msgs :: rest)
    = Finished (nodes (ingest st)).
Proof.
  intros Hpre Hu. rewrite (poll_loop_0705_app pre _ _ _ Hpre). simpl.
  apply useless_poll_drain in Hu. unfold fresh in Hu. rewrite Hu. reflexivity.
Qed.

Lemma first_useless_poll_ends_loop_0705_witness :
  poll_loop_0705 startIngest
    ([PollReady [Some (MonStatsMsg 2 blob_beta)]] ++
     PollReady [Some (MonStatsMsg 1 blob_alpha)] :: [PollReady [Some (MonStatsMsg 3 blob_beta)]])
  = Finished [beta_node 2].
Proof.
  apply (first_useless_poll_ends_loop_0705
           [PollReady [Some (MonStatsMsg 2 blob_beta)]] _
           (mkPolling (mkIngest [beta_node 2] 2 true) 0)
           [Some (MonStatsMsg 1 blob_alpha)]).
  - vm_compute. reflexivity.
  - eexists. split; vm_compute; reflexivity.
Defined.

(** X8. When the channel is readable and [get_msg()] hands out the null
    pointer, after any messages that let the loop go on, [main] returns
    [EXIT_CONNECTION_ERR] at once and prints nothing on [stdout], whatever
    records it holds by then. *)
Theorem null_message_is_fatal `{TextShaping}
    (cfg : Config) (pre rest : list PollResult) (st : Polling)
    (before after : list (option Msg)) (ing : Ingest) :
  poll_loop startPolling pre = Awaiting st →
  drain (fresh (ingest st)) before = Next ing →
  main cfg (pre ++ PollReady (before ++ None :: after) :: rest)
    = Exited EXIT_CONNECTION_ERR [].
Proof.
  intros Hpre Hbefore. unfold main, fresh in *.
  rewrite (poll_loop_app pre _ _ _ Hpre). cbn [poll_loop].
  rewrite drain_app, Hbefore. reflexivity.
Qed.

Lemma null_message_is_fatal_witness :
  main (H := plainShaping) tableConfig
    ([PollReady [Some (MonStatsMsg 1 blob_alpha)]] ++
     PollReady ([Some (MonStatsMsg 2 blob_beta)] ++ None :: [Some (OtherMsg 7)])
     :: [PollTimeout])
  = Exited 2 [].
Proof.
  apply (null_message_is_fatal (H := plainShaping) tableConfig
           [PollReady [Some (MonStatsMsg 1 blob_alpha)]] [PollTimeout]
           (mkPolling (mkIngest [alpha_node] 1 true) 0) _ _
           (mkIngest [alpha_node; beta_node 2] 2 true)).
  - vm_compute. reflexivity.
  - vm_compute. reflexivity.
Defined.

(** *** Messages of other types *)

Lemma drain_without_other msgs st : drain st (without_other msgs) = drain st msgs.
Proof.
  revert st. induction msgs as [|m msgs IH]; intros st; [reflexivity|].
  unfold without_other in *.
  destruct m as [[hostid statmsg| |ty]|]; cbn [List.filter is_other negb drain].
  - destruct (on_message st (Some (MonStatsMsg hostid statmsg))); simpl; auto.
  - reflexivity.
  - simpl. apply IH.
  - reflexivity.
Qed.

Lemma poll_loop_without_other polls st :
  poll_loop st (map poll_without_other polls) = poll_loop st polls.
Proof.
  revert st. induction polls as [|p polls IH]; intros st; [reflexivity|].
  destruct p as [| |msgs]; simpl; try reflexivity.
  rewrite drain_without_other. destruct (drain _ msgs); try reflexivity.
  destruct (_ <? _); [apply IH | reflexivity].
Qed.

(** X9. Messages of a type other than [M_MON_STATS] and [M_END] are
    passed over: taking them all out of what the channel hands out
    changes neither the records collected nor how [main] ends nor what it
    prints. *)
Theorem other_messages_ignored `{TextShaping}
    (cfg : Config) (polls : list PollResult) (st : Ingest) (msgs : list (option Msg)) :
  drain st (without_other msgs) = drain st msgs ∧
  poll_loop startPolling (map poll_without_other polls)
    = poll_loop startPolling polls ∧
  main cfg (map poll_without_other polls) = main cfg polls.
Proof.
  split; [apply drain_without_other|]. unfold main.
  rewrite poll_loop_without_other. split; reflexivity.
Qed.

(** *** Where the records come from *)

Lemma on_message_grows st msg st' :
  on_message st msg = Next st' →
  nodes st' = nodes st ∨
  ∃ hostid statmsg r,
    msg = Some (MonStatsMsg hostid statmsg) ∧
    create hostid statmsg = Ret (Some r) ∧ nodes st' = nodes st ++ [r].
Proof.
  destruct msg as [[hostid statmsg| |ty]|]; simpl; try discriminate.
  - destruct (create hostid statmsg) as [[r|]| |] eqn:Hc; try discriminate.
    + destruct (_ <? _)%N; intros [= <-]; [right|left; reflexivity].
      exists hostid, statmsg, r. auto.
    + intros [= <-]. left. reflexivity.
  - intros [= <-]. left. reflexivity.
Qed.

Lemma from_stats_app_l s1 s2 r : from_stats s1 r → from_stats (s1 ++ s2) r.
Proof.
  intros (h & s & Hin & Hc). exists h, s. split; [|exact Hc].
  apply elem_of_app. left. exact Hin.
Qed.

Lemma from_stats_app_r s1 s2 r : from_stats s2 r → from_stats (s1 ++ s2) r.
Proof.
  intros (h & s & Hin & Hc). exists h, s. split; [|exact Hc].
  apply elem_of_app. right. exact Hin.
Qed.

Lemma grown_from_refl old stats : grown_from old old stats.
Proof. exists []. rewrite app_nil_r. repeat split; [constructor | simpl; lia]. Qed.

Lemma grown_from_trans a b c s1 s2 :
  grown_from a b s1 → grown_from b c s2 → grown_from a c (s1 ++ s2).
Proof.
  intros (k1 & -> & Hk1 & Hl1) (k2 & -> & Hk2 & Hl2).
  exists (k1 ++ k2). rewrite <- app_assoc. split; [reflexivity|]. split.
  - apply Forall_app. split.
    + eapply Forall_impl; [exact Hk1|]. intros r. apply from_stats_app_l.
    + eapply Forall_impl; [exact Hk2|]. intros r. apply from_stats_app_r.
  - rewrite !length_app. lia.
Qed.

Lemma on_message_grown st msg st' :
  on_message st msg = Next st' → grown_from (nodes st) (nodes st') (stats_in [msg]).
Proof.
  intros H. apply on_message_grows in H as [->|(h & s & r & -> & Hc & ->)].
  - apply grown_from_refl.
  - exists [r]. split; [reflexivity|]. split; [|simpl; lia].
    constructor; [|constructor]. exists h, s. split; [|exact Hc].
    simpl. apply list_elem_of_here.
Qed.

Lemma drain_grown msgs st st' :
  drain st msgs = Next st' → grown_from (nodes st) (nodes st') (stats_in msgs).
Proof.
  revert st. induction msgs as [|m msgs IH]; intros st; cbn [drain].
  - intros [= <-]. apply grown_from_refl.
  - intros H. apply andThen_Next in H as (st1 & H1 & H2).
    replace (stats_in (m :: msgs)) with (stats_in [m] ++ stats_in msgs)
      by (unfold stats_in; simpl; rewrite app_nil_r; reflexivity).
    exact (grown_from_trans _ _ _ _ _ (on_message_grown _ _ _ H1) (IH _ H2)).
Qed.

Lemma poll_loop_grown polls st ns :
  collected (poll_loop st polls) = Some ns →
  grown_from (nodes (ingest st)) ns (stats_of polls).
Proof.
  revert st. induction polls as [|p polls IH]; intros st; simpl.
  - intros [= <-]. apply grown_from_refl.
  - destruct p as [| |msgs]; simpl; try discriminate.
    + intros [= <-]. apply grown_from_refl.
    + destruct (drain _ msgs) as [ing| | |] eqn:Hd; simpl; try discriminate.
      apply drain_grown in Hd. simpl in Hd.
      destruct (_ <? _).
      * intros H. eapply grown_from_trans; [exact Hd|]. apply (IH _ H).
      * simpl. intros [= <-].
        destruct Hd as (k & Hk & Hf & Hl). exists k. split; [exact Hk|]. split.
        -- eapply Forall_impl; [exact Hf|]. intros r. apply from_stats_app_l.
        -- rewrite length_app. lia.
Qed.

Lemma poll_loop_0705_grown polls ing ns :
  collected (poll_loop_0705 ing polls) = Some ns →
  grown_from (nodes ing) ns (stats_of polls).
Proof.
  revert ing. induction polls as [|p polls IH]; intros ing; simpl.
  - intros [= <-]. apply grown_from_refl.
  - destruct p as [| |msgs]; simpl; try discriminate.
    + intros [= <-]. apply grown_from_refl.
    + destruct (drain _ msgs) as [ing'| | |] eqn:Hd; simpl; try discriminate.
      apply drain_grown in Hd. simpl in Hd.
      destruct (wasPollUseful ing').
      * intros H. eapply grown_from_trans; [exact Hd|]. apply (IH _ H).
      * simpl. intros [= <-].
        destruct Hd as (k & Hk & Hf & Hl). exists k. split; [exact Hk|]. split.
        -- eapply Forall_impl; [exact Hf|]. intros r. apply from_stats_app_l.
        -- rewrite length_app. lia.
Qed.

(** X10. The collection only grows, and only by parsed messages: what the
    loop holds after more polls is what it held before, in the same
    order, followed by new records; every record held is what [create]
    returned for one of the stats messages received, and there are at
    most as many records as stats messages.  This holds for the loops of
    both versions. *)
Theorem records_come_from_messages
    (pre rest : list PollResult) (st : Polling) (ns : list NodeInfo) :
  poll_loop startPolling pre = Awaiting st →
  collected (poll_loop startPolling (pre ++ rest)) = Some ns →
  (∃ k, ns = nodes (ingest st) ++ k) ∧
  (∀ r, r ∈ ns → from_stats (stats_of (pre ++ rest)) r) ∧
  length ns ≤ length (stats_of (pre ++ rest)) ∧
  (∀ polls ns', collected (poll_loop_0705 startIngest polls) = Some ns' →
     (∀ r, r ∈ ns' → from_stats (stats_of polls) r) ∧
     length ns' ≤ length (stats_of polls)).
Proof.
  intros Hpre Hc. split; [|split; [|split]].
  - rewrite (poll_loop_app pre _ _ _ Hpre) in Hc.
    apply poll_loop_grown in Hc as (k & -> & _). eauto.
  - apply poll_loop_grown in Hc as (k & -> & Hf & _). simpl.
    intros r Hr. rewrite Forall_forall in Hf. apply Hf, Hr.
  - apply poll_loop_grown in Hc as (k & -> & _ & Hl). simpl. exact Hl.
  - intros polls ns' Hc'. apply poll_loop_0705_grown in Hc' as (k & -> & Hf & Hl).
    simpl. split; [|exact Hl]. intros r Hr. rewrite Forall_forall in Hf. apply Hf, Hr.
Qed.

Lemma records_come_from_messages_witness :
  (∃ k, [alpha_node; beta_node 2] = [alpha_node] ++ k) ∧
  length [alpha_node; beta_node 2]
  ≤ length (stats_of ([PollReady [Some (MonStatsMsg 1 blob_alpha)]] ++
                      [PollReady [Some (MonStatsMsg 2 blob_beta); Some (MonStatsMsg 2 blob_beta)]])).
Proof.
  destruct (records_come_from_messages
              [PollReady [Some (MonStatsMsg 1 blob_alpha)]]
              [PollReady [Some (MonStatsMsg 2 blob_beta); Some (MonStatsMsg 2 blob_beta)]]
              (mkPolling (mkIngest [alpha_node] 1 true) 0)
              [alpha_node; beta_node 2]) as (H1 & _ & H3 & _).
  - vm_compute. reflexivity.
  - vm_compute. reflexivity.
  - split; [exact H1 | exact H3].
Defined.

(** ** The end of [main] *)

Lemma filtered_out_displayed cfg n : filtered_out cfg n = negb (displayed cfg n).
Proof.
  unfold filtered_out, displayed.
  destruct (noOffline cfg), (m_offline n), (noNoRemote cfg), (m_noRemote n); reflexivity.
Qed.

Lemma all_filtered_out cfg ns :
  forallb (filtered_out cfg) ns = true ↔ List.filter (displayed cfg) ns = [].
Proof.
  induction ns as [|n ns IH]; simpl; [tauto|].
  rewrite filtered_out_displayed. destruct (displayed cfg n); simpl.
  - split; discriminate.
  - exact IH.
Qed.

Lemma no_data_test cfg ns :
  empty_nodes ns || forallb (filtered_out cfg) ns = true
  ↔ List.filter (displayed cfg) ns = [].
Proof.
  rewrite orb_true_iff, all_filtered_out. split; [|auto].
  intros [He|Hf]; [|exact Hf]. destruct ns; [reflexivity|discriminate].
Qed.

Lemma report_ok `{TextShaping} cfg ns :
  empty_nodes ns || forallb (filtered_out cfg) ns = false →
  ∃ out, report cfg ns = Exited EXIT_OK out ∧ out ≠ [].
Proof.
  intros Hc. unfold report. rewrite Hc.
  destruct (brief cfg).
  { eexists. split; [reflexivity|]. intros Heq. apply app_eq_nil in Heq as [_ Heq]. discriminate. }
  destruct (negb (noTable cfg)).
  - rewrite renderTable_is_layout by discriminate. eexists. split; [reflexivity|]. discriminate.
  - eexists. split; [reflexivity|]. intros Heq.
    repeat (apply app_eq_nil in Heq as [_ Heq]). discriminate.
Qed.

(** X11. After the loop [main] exits with [EXIT_NO_DATA], printing
    nothing, exactly when no record is left to display, be it that none
    was collected or that the filter flags hide them all; otherwise it
    exits with [EXIT_OK] and prints something. *)
Theorem no_data_iff_nothing_displayed `{TextShaping} (cfg : Config) (ns : list NodeInfo) :
  (report cfg ns = Exited EXIT_NO_DATA [] ↔ List.filter (displayed cfg) ns = []) ∧
  (List.filter (displayed cfg) ns ≠ [] →
   ∃ out, report cfg ns = Exited EXIT_OK out ∧ out ≠ []).
Proof.
  destruct (empty_nodes ns || forallb (filtered_out cfg) ns) eqn:Hc.
  - pose proof (proj1 (no_data_test cfg ns) Hc) as Hf. split.
    + split; [auto|]. intros _. unfold report. rewrite Hc. reflexivity.
    + intros Hne. contradiction.
  - destruct (report_ok cfg ns Hc) as (out & Hr & Hout).
    assert (Hne : List.filter (displayed cfg) ns ≠ []).
    { intros Hf. apply no_data_test in Hf. congruence. }
    split; [|eauto]. rewrite Hr. split; [discriminate | contradiction].
Qed.

Lemma on_message_code st msg code :
  on_message st msg = Return code → code = EXIT_CONNECTION_ERR.
Proof.
  destruct msg as [[hostid statmsg| |ty]|]; simpl; try (intros [= <-]; reflexivity); try discriminate.
  destruct (create hostid statmsg) as [[r|]| |]; try discriminate.
  destruct (_ <? _)%N; discriminate.
Qed.

Lemma drain_code msgs st code :
  drain st msgs = Return code → code = EXIT_CONNECTION_ERR.
Proof.
  revert st. induction msgs as [|m msgs IH]; intros st; simpl; [discriminate|].
  destruct (on_message st m) eqn:Hm; simpl; try discriminate.
  - apply IH.
  - intros [= <-]. eapply on_message_code; eassumption.
Qed.

Lemma poll_loop_code polls st code :
  poll_loop st polls = Returned code → code = EXIT_CONNECTION_ERR.
Proof.
  revert st. induction polls as [|p polls IH]; intros st; simpl; [discriminate|].
  destruct p as [| |msgs]; try discriminate.
  - intros [= <-]. reflexivity.
  - destruct (drain _ msgs) eqn:Hd; try discriminate.
    + destruct (_ <? _); [apply IH | discriminate].
    + intros [= <-]. eapply drain_code; eassumption.
Qed.

(** X12. Whenever [main] comes to an end by itself, its exit code is 0, 2
    or 3: with 0 something was printed and some collected record passes
    the filter flags; with 2 or 3 nothing was printed on [stdout]. *)
Theorem main_exit_codes `{TextShaping}
    (cfg : Config) (polls : list PollResult) (code : Z) (out : list ascii) :
  main cfg polls = Exited code out →
  (code = 0%Z ∧ out ≠ [] ∧
   ∃ ns, poll_loop startPolling polls = Finished ns ∧
         List.filter (displayed cfg) ns ≠ []) ∨
  (code = 2%Z ∧ out = []) ∨
  (code = 3%Z ∧ out = []).
Proof.
  unfold main. destruct (poll_loop startPolling polls) as [st|ns|c|e|] eqn:Hp;
    try discriminate.
  - destruct (empty_nodes ns || forallb (filtered_out cfg) ns) eqn:Hc.
    + unfold report. rewrite Hc. intros [= <- <-]. right. right. auto.
    + destruct (report_ok cfg ns Hc) as (out' & -> & Hout). intros [= <- <-].
      left. repeat split; [exact Hout|]. exists ns. split; [reflexivity|].
      intros Hf. apply no_data_test in Hf. congruence.
  - intros [= <- <-]. apply poll_loop_code in Hp. right. left. auto.
Qed.

Lemma main_exit_codes_witness :
  ((0 = 0)%Z ∧ blob ["2 nodes, 8 cores total."] ≠ [] ∧
   ∃ ns, poll_loop startPolling
           [PollReady [Some (MonStatsMsg 1 blob_alpha); Some (MonStatsMsg 2 blob_beta)];
            PollTimeout] = Finished ns ∧
         List.filter (displayed (mkConfig false true false true false false)) ns ≠ []) ∨
  ((0 = 2)%Z ∧ blob ["2 nodes, 8 cores total."] = []) ∨
  ((0 = 3)%Z ∧ blob ["2 nodes, 8 cores total."] = []).
Proof.
  apply (main_exit_codes (H := plainShaping) (mkConfig false true false true false false)
           [PollReady [Some (MonStatsMsg 1 blob_alpha); Some (MonStatsMsg 2 blob_beta)];
            PollTimeout]).
  vm_compute. reflexivity.
Defined.

(** *** Counts *)

Lemma length_table_strings cfg ns :
  length (table_strings cfg ns) = 7 * length (List.filter (displayed cfg) ns).
Proof.
  rewrite table_strings_rows, (length_concat_rows 7), length_map; [reflexivity|].
  apply List.Forall_forall. intros row Hrow.
  apply in_map_iff in Hrow as (n & <- & _). reflexivity.
Qed.

(** X13. The row vector [main] hands to [renderTable] holds seven strings
    for each record that passes the filter flags and nothing else, so its
    length is a multiple of the seven columns; the node count of the
    summary line is the number of its rows (modulo [2^32]), never more
    than the number of records collected, and all of them when no filter
    flag is set. *)
Theorem rows_and_node_count (cfg : Config) (ns : list NodeInfo) :
  table_strings cfg ns
    = concat (map (node_row cfg) (List.filter (displayed cfg) ns)) ∧
  length (table_strings cfg ns) = 7 * length (List.filter (displayed cfg) ns) ∧
  nodeCount cfg ns = (N.of_nat (length (table_strings cfg ns) / 7) mod 2 ^ 32)%N ∧
  (nodeCount cfg ns ≤ N.of_nat (length ns))%N ∧
  (noOffline cfg = false → noNoRemote cfg = false →
   nodeCount cfg ns = (N.of_nat (length ns) mod 2 ^ 32)%N).
Proof.
  split; [apply table_strings_rows|]. split; [apply length_table_strings|].
  unfold nodeCount. rewrite length_table_strings.
  replace (7 * length (List.filter (displayed cfg) ns) / 7)
    with (length (List.filter (displayed cfg) ns))
    by (rewrite Nat.mul_comm, Nat.div_mul; lia).
  split; [reflexivity|]. split.
  - etransitivity; [apply N.Div0.mod_le|].
    pose proof (filter_length_le (displayed cfg) ns). lia.
  - intros Ho Hr. f_equal. f_equal. f_equal.
    induction ns as [|n ns IH]; [reflexivity|]. simpl.
    unfold displayed at 1. rewrite Ho, Hr. simpl. f_equal. exact IH.
Qed.

Lemma core_sum_cons n ns :
  core_sum (n :: ns) = ((if counted n then m_maxJobs n else 0) + core_sum ns)%N.
Proof. unfold core_sum. simpl. destruct (counted n); reflexivity. Qed.

Lemma core_sum_app a b : core_sum (a ++ b) = (core_sum a + core_sum b)%N.
Proof.
  induction a as [|n a IH]; [reflexivity|].
  rewrite <- app_comm_cons, !core_sum_cons, IH. lia.
Qed.

Lemma core_sum_perm a b : a ≡ₚ b → core_sum a = core_sum b.
Proof.
  induction 1 as [|n a b _ IH|n m a|a b c _ IH1 _ IH2].
  - reflexivity.
  - rewrite !core_sum_cons, IH. reflexivity.
  - rewrite !core_sum_cons. lia.
  - congruence.
Qed.

(** X14. The total of cores does not depend on the order in which the
    nodes were collected, and the total of two collections put together
    is the sum of their totals modulo [2^32]; it is always below
    [2^32]. *)
Theorem coreCount_order_free (a b : list NodeInfo) :
  (a ≡ₚ b → coreCount a = coreCount b) ∧
  coreCount (a ++ b) = ((coreCount a + coreCount b) mod 2 ^ 32)%N ∧
  (coreCount a < 2 ^ 32)%N.
Proof.
  rewrite !coreCount_mod. split; [|split].
  - intros Hp. rewrite (core_sum_perm a b Hp). reflexivity.
  - rewrite core_sum_app. unfold UINT32. rewrite <- N.Div0.add_mod. reflexivity.
  - apply N.mod_lt. discriminate.
Qed.

(** ** The table renderer *)

(** X15. Padding never cuts a string and adds spaces only: a string at
    least as long as the column is left as it is; a shorter one gets the
    missing spaces after it when aligned left, before it when aligned
    right, and on both sides when centred, with as many before as after
    or, when their number is odd, one more after. *)
Theorem pad_str_alignment (maxLen len : nat) (str : list ascii) :
  (maxLen ≤ len → ∀ align, pad_str align maxLen len str = str) ∧
  (len < maxLen →
   pad_str Left maxLen len str = str ++ replicate (maxLen - len) space ∧
   pad_str Right maxLen len str = replicate (maxLen - len) space ++ str ∧
   ∃ before after,
     pad_str Center maxLen len str
       = replicate before space ++ str ++ replicate after space ∧
     before + after = maxLen - len ∧ before ≤ after ∧ after ≤ before + 1).
Proof.
  unfold pad_str. split.
  - intros Hle align. destruct (Nat.ltb_spec len maxLen); [lia|reflexivity].
  - intros Hlt. destruct (Nat.ltb_spec len maxLen); [|lia].
    split; [reflexivity|]. split; [reflexivity|].
    exists ((maxLen - len) / 2), (maxLen - len - (maxLen - len) / 2).
    split; [reflexivity|].
    pose proof (Nat.div_mod_eq (maxLen - len) 2) as Hdm.
    pose proof (Nat.mod_upper_bound (maxLen - len) 2 ltac:(lia)) as Hm.
    lia.
Qed.

Section RenderTableMore.
Context `{TextShaping}.
Variables (header : list ColumnHeader) (strings : list (list ascii)).
Variables (plain asciiOnly : bool).

Local Abbreviation C := (length header).
Local Abbreviation R := (length strings / length header).
Local Abbreviation cellText := (cell_text header strings plain asciiOnly).
Local Abbreviation cellWidth := (cell_width header strings plain asciiOnly).
Local Abbreviation colWidth := (col_width header strings plain asciiOnly).
Local Abbreviation paddedCell := (padded header strings plain asciiOnly).
Local Abbreviation rowLine := (row_line header strings plain asciiOnly).
Local Abbreviation ruleLine := (rule_line header strings plain asciiOnly).

Lemma padded_length c r :
  r ≤ R → length (cellText c r) = cellWidth c r →
  length (paddedCell c r) = colWidth c.
Proof.
  intros Hr Hexact.
  destruct (pad_str_shape (alignment (at_ header c noHeader)) (colWidth c)
              (cellWidth c r) (cellText c r)) as (before & after & Hp & Hsum).
  { apply col_max_upper. lia. }
  unfold padded. rewrite Hp, !length_app, !length_replicate, Hexact. lia.
Qed.

Lemma sum_list_map_ext (f g : nat → nat) l :
  (∀ x, x ∈ l → f x = g x) → sum_list (map f l) = sum_list (map g l).
Proof.
  induction l as [|x l IH]; intros Hfg; [reflexivity|]. simpl.
  rewrite (Hfg x) by apply list_elem_of_here. rewrite IH; [reflexivity|].
  intros y Hy. apply Hfg. apply list_elem_of_further, Hy.
Qed.

Lemma length_concat_replicate {A} n (x : list A) :
  length (concat (replicate n x)) = n * length x.
Proof. induction n as [|n IH]; simpl; [reflexivity|]. rewrite length_app, IH. lia. Qed.

(** X16. The table [renderTable] returns is the header line, the rule
    under it unless the table is plain, and one line for each row.  When
    the measured width of every cell is the number of its chars (as it is
    in the columns that are not treated as Unicode), all these lines of
    cells have the same length: the widths of the columns, the separators
    between them and the line feed.  In a bordered table drawn with the
    7-bit glyphs the rule has that length too. *)
Theorem table_lines_equal_length :
  header ≠ [] →
  (∀ c r, c < C → r ≤ R → length (cellText c r) = cellWidth c r) →
  renderTable header strings plain asciiOnly
  = Some (rowLine 0 ++ (if plain then [] else ruleLine) ++
          concat (map rowLine (seq 1 R))) ∧
  (∀ r, r ≤ R →
     length (rowLine r)
     = sum_list (map colWidth (seq 0 C))
       + (C - 1) * length (vert_sep plain asciiOnly) + 1) ∧
  (plain = false → asciiOnly = true →
   length ruleLine
   = sum_list (map colWidth (seq 0 C))
     + (C - 1) * length (vert_sep plain asciiOnly) + 1).
Proof.
  intros Hne Hexact.
  split; [rewrite renderTable_is_layout by exact Hne; reflexivity|]. split.
  - intros r Hr. unfold row_line, row_cells.
    rewrite length_app, join_length, length_map, length_seq, map_map. simpl.
    rewrite (sum_list_map_ext (λ c, length (paddedCell c r)) colWidth); [reflexivity|].
    intros c Hc. apply elem_of_seq in Hc. apply padded_length; [exact Hr|].
    apply Hexact; [lia | exact Hr].
  - intros Hp Ha. unfold rule_line.
    rewrite length_app, join_length, length_map, length_seq, map_map.
    rewrite (sum_list_map_ext _ colWidth).
    + unfold cross_sep, vert_sep. rewrite Hp, Ha. reflexivity.
    + intros c _. rewrite length_concat_replicate. unfold hor_line.
      rewrite Ha. simpl. lia.
Qed.
End RenderTableMore.

Lemma table_lines_equal_length_witness :
  length (row_line (H := plainShaping) sample_header sample_strings false true 2)
  = sum_list (map (col_width (H := plainShaping) sample_header sample_strings false true)
               (seq 0 (length sample_header)))
    + (length sample_header - 1) * length (vert_sep false true) + 1.
Proof.
  refine (proj1 (proj2 (table_lines_equal_length (H := plainShaping)
                          sample_header sample_strings false true _ _)) 2 _).
  - discriminate.
  - intros c r Hc Hr.
    destruct c as [|[|c]]; [| |simpl in Hc; lia];
      (destruct r as [|[|[|r]]]; [| | |vm_compute in Hr; lia]); vm_compute; reflexivity.
  - vm_compute. lia.
Defined.

(** *** A row that is not complete *)

Lemma col_max_ext `{TextShaping} header s1 s2 plain asciiOnly c n :
  (∀ r, r < n → shape header s1 plain asciiOnly c r = shape header s2 plain asciiOnly c r) →
  col_max header s1 plain asciiOnly c n = col_max header s2 plain asciiOnly c n.
Proof.
  induction n as [|n IH]; intros Hs; [reflexivity|].
  rewrite !col_max_S, IH by (intros; apply Hs; lia).
  unfold cell_width. rewrite Hs by lia. reflexivity.
Qed.

Lemma layout_ext `{TextShaping} header s1 s2 plain asciiOnly :
  length s1 / length header = length s2 / length header →
  (∀ c r, c < length header → r ≤ length s2 / length header →
     shape header s1 plain asciiOnly c r = shape header s2 plain asciiOnly c r) →
  layout header s1 plain asciiOnly = layout header s2 plain asciiOnly.
Proof.
  intros HR Hs.
  assert (Hw : ∀ c, c < length header →
    col_width header s1 plain asciiOnly c = col_width header s2 plain asciiOnly c).
  { intros c Hc. unfold col_width. rewrite HR. apply col_max_ext.
    intros r Hr. apply Hs; [exact Hc | lia]. }
  assert (Hp : ∀ c r, c < length header → r ≤ length s2 / length header →
    padded header s1 plain asciiOnly c r = padded header s2 plain asciiOnly c r).
  { intros c r Hc Hr. unfold padded, cell_width, cell_text.
    rewrite (Hw c Hc), (Hs c r Hc Hr). reflexivity. }
  assert (Hl : ∀ r, r ≤ length s2 / length header →
    row_line header s1 plain asciiOnly r = row_line header s2 plain asciiOnly r).
  { intros r Hr. unfold row_line, row_cells. f_equal. f_equal.
    apply map_ext_in. intros c Hc. apply in_seq in Hc. apply Hp; [lia | exact Hr]. }
  unfold layout. rewrite HR. f_equal; [apply Hl; lia|]. f_equal.
  - destruct plain; [reflexivity|]. unfold rule_line. f_equal. f_equal.
    apply map_ext_in. intros c Hc. apply in_seq in Hc. rewrite Hw by lia. reflexivity.
  - f_equal. apply map_ext_in. intros r Hr. apply in_seq in Hr. apply Hl. lia.
Qed.

(** X17. [renderTable] reads whole rows only: when the length of the row
    vector is no multiple of the number of columns, the strings after the
    last whole row are left out, and the table is that of the whole
    rows. *)
Theorem renderTable_whole_rows `{TextShaping}
    (header : list ColumnHeader) (strings : list (list ascii)) (plain asciiOnly : bool) :
  renderTable header
    (take (length header * (length strings / length header)) strings)
    plain asciiOnly
  = renderTable header strings plain asciiOnly.
Proof.
  rename header into hdr.
  destruct (decide (hdr = [])) as [->|Hne]; [reflexivity|].
  assert (HC : 0 < length hdr) by (destruct hdr; [congruence | simpl; lia]).
  rewrite !renderTable_is_layout by exact Hne. f_equal.
  pose proof (Nat.Div0.mul_div_le (length strings) (length hdr)) as Hle.
  assert (HR : length (take (length hdr * (length strings / length hdr)) strings)
               / length hdr = length strings / length hdr).
  { rewrite length_take_le by exact Hle. rewrite Nat.mul_comm, Nat.div_mul; lia. }
  apply layout_ext; [exact HR|].
  intros c r Hc Hr. unfold shape.
  destruct (Nat.eqb_spec r 0) as [->|Hr0]; [reflexivity|].
  replace (at_ (take (length hdr * (length strings / length hdr)) strings)
             (length hdr * (r - 1) + c) [])
    with (at_ strings (length hdr * (r - 1) + c) []); [reflexivity|].
  unfold at_. rewrite !nth_lookup, lookup_take_lt; [reflexivity|]. nia.
Qed.

(** A third string of a second row is left out of a two-column table. *)
Example renderTable_partial_row :
  renderTable (H := plainShaping) sample_header
    [lit "1"; lit "alpha"; lit "12"] true false
  = Some (blob ["Node # Name "; "     1 alpha"]).
Proof. vm_compute. reflexivity. Qed.

(** *** The margin of a bordered table *)

Lemma pad_str_form align maxLen len str :
  ∃ before after,
    pad_str align maxLen len str
    = replicate before space ++ str ++ replicate after space.
Proof.
  unfold pad_str. destruct (len <? maxLen).
  - destruct align.
    + exists 0, (maxLen - len). reflexivity.
    + exists (maxLen - len), 0. rewrite app_nil_r. reflexivity.
    + eexists _, _. reflexivity.
  - exists 0, 0. simpl. rewrite app_nil_r. reflexivity.
Qed.

Lemma padded_starts_with_space align maxLen len str :
  ∃ tl, pad_str align maxLen len (space :: str) = space :: tl.
Proof.
  destruct (pad_str_form align maxLen len (space :: str)) as (before & after & ->).
  destruct before as [|before]; simpl; eauto.
Qed.

Lemma padded_ends_with_space align maxLen len str :
  ∃ hd, pad_str align maxLen len (str ++ [space]) = hd ++ [space].
Proof.
  destruct (pad_str_form align maxLen len (str ++ [space])) as (before & after & ->).
  destruct after as [|after].
  - simpl. rewrite app_nil_r, app_assoc. eauto.
  - rewrite replicate_S_end, !app_assoc. eauto.
Qed.

Lemma first_cell_margin `{TextShaping} header strings asciiOnly r :
  ∃ res, cell_text header strings false asciiOnly 0 r = space :: res.
Proof.
  unfold cell_text, shape. simpl.
  destruct (treatAsUnicode _); [destruct (trans_on asciiOnly)|]; simpl; eauto.
Qed.

Lemma last_cell_margin `{TextShaping} header strings asciiOnly r :
  2 ≤ length header →
  ∃ res, cell_text header strings false asciiOnly (length header - 1) r
         = res ++ [space].
Proof.
  intros HC. unfold cell_text, shape. simpl.
  destruct (Nat.eqb_spec (length header - 1) 0) as [|_]; [lia|].
  rewrite Nat.eqb_refl.
  destruct (treatAsUnicode _); [destruct (trans_on asciiOnly)|]; simpl; eauto.
Qed.

(** X18. A bordered table is the header line, the rule and the lines of
    the rows; each of these lines of cells begins with a space, the
    margin of the first column, and with two columns or more it ends with
    a space, the margin of the last column, before the line feed. *)
Theorem bordered_lines_margin `{TextShaping}
    (header : list ColumnHeader) (strings : list (list ascii))
    (asciiOnly : bool) (r : nat) :
  header ≠ [] →
  renderTable header strings false asciiOnly
  = Some (row_line header strings false asciiOnly 0 ++
          rule_line header strings false asciiOnly ++
          concat (map (row_line header strings false asciiOnly)
                    (seq 1 (length strings / length header)))) ∧
  (∃ tl, row_line header strings false asciiOnly r = space :: tl) ∧
  (2 ≤ length header →
   ∃ hd, row_line header strings false asciiOnly r = hd ++ [space; LF]).
Proof.
  intros Hne.
  split; [rewrite renderTable_is_layout by exact Hne; reflexivity|]. split.
  - unfold row_line, row_cells.
    destruct header as [|h header']; [congruence|]. cbn [length seq map join].
    unfold padded. destruct (first_cell_margin (h :: header') strings asciiOnly r) as [res ->].
    destruct (padded_starts_with_space (alignment (at_ (h :: header') 0 noHeader))
                (col_width (h :: header') strings false asciiOnly 0)
                (cell_width (h :: header') strings false asciiOnly 0 r) res) as [tl ->].
    simpl. eauto.
  - intros HC. unfold row_line, row_cells. cbv zeta.
    assert (Hseq : seq 0 (length header)
                   = seq 0 (length header - 1) ++ [length header - 1]).
    { replace (length header) with (S (length header - 1)) at 1 by lia.
      apply seq_S. }
    rewrite Hseq, map_app. cbn [map]. rewrite join_snoc.
    destruct (last_cell_margin header strings asciiOnly r HC) as [res Hres].
    destruct (padded_ends_with_space
                (alignment (at_ header (length header - 1) noHeader))
                (col_width header strings false asciiOnly (length header - 1))
                (cell_width header strings false asciiOnly (length header - 1) r) res)
      as [hd Hhd].
    assert (Hlast : padded header strings false asciiOnly (length header - 1) r
                    = hd ++ [space]).
    { unfold padded. rewrite Hres. exact Hhd. }
    rewrite Hlast.
    destruct (map _ (seq 0 (length header - 1))) as [|p ps].
    + exists hd. rewrite <- app_assoc. reflexivity.
    + exists (join (vert_sep false asciiOnly) (p :: ps)
              ++ vert_sep false asciiOnly ++ hd).
      rewrite <- !app_assoc. reflexivity.
Qed.

Lemma bordered_lines_margin_witness :
  renderTable (H := plainShaping) sample_header sample_strings false true
  = Some (row_line (H := plainShaping) sample_header sample_strings false true 0 ++
          rule_line (H := plainShaping) sample_header sample_strings false true ++
          concat (map (row_line (H := plainShaping) sample_header sample_strings false true)
                    (seq 1 (length sample_strings / length sample_header)))) ∧
  (∃ tl, row_line (H := plainShaping) sample_header sample_strings false true 1 = space :: tl) ∧
  (2 ≤ length sample_header →
   ∃ hd, row_line (H := plainShaping) sample_header sample_strings false true 1
         = hd ++ [space; LF]).
Proof.
  apply (bordered_lines_margin (H := plainShaping) sample_header sample_strings true 1).
  discriminate.
Defined.

(** ** The clock *)



(** ** The command line *)

Lemma options_loop_app `{Scanf} l1 l2 g :
  options_loop (l1 ++ l2) g =
  match options_loop l1 g with
  | Proceed g' => options_loop l2 g'
  | Stop code out => Stop code out
  end.
Proof.
  revert g. induction l1 as [|o l1 IH]; intros g; simpl; [reflexivity|].
  destruct (on_option o g); [apply IH | reflexivity].
Qed.

Lemma on_option_stop `{Scanf} o g code out :
  on_option o g = Stop code out →
  (code = EXIT_OK ∧ out = VersionStr) ∨ (code = EXIT_INVALID_ARGS ∧ out = []).
Proof.
  destruct o; simpl; try discriminate;
    try (intros [= <- <-]; auto; fail).
  - destruct (sscanf_u optarg); [discriminate | intros [= <- <-]; auto].
  - destruct (sscanf_hu optarg); [discriminate | intros [= <- <-]; auto].
  - repeat (case_bool_decide; simpl; try discriminate).
    intros [= <- <-]; auto.
Qed.

Lemma options_loop_stop `{Scanf} opts g code out :
  options_loop opts g = Stop code out →
  (code = EXIT_OK ∧ out = VersionStr) ∨ (code = EXIT_INVALID_ARGS ∧ out = []).
Proof.
  revert g. induction opts as [|o opts IH]; intros g; simpl; [discriminate|].
  destruct (on_option o g) eqn:Ho; [apply IH|].
  intros [= <- <-]. eapply on_option_stop; eassumption.
Qed.

(** Cases of a disjunction of flags already set and options given. *)
Ltac split_cases Hx :=
  repeat match type of Hx with _ ∨ _ => destruct Hx as [Hx|Hx] end;
  try discriminate; auto 7.

Lemma options_loop_flags `{Scanf} opts g g' :
  options_loop opts g = Proceed g' →
  (Globals.brief g' = true ↔ Globals.brief g = true ∨ opt_brief ∈ opts) ∧
  (Globals.veryQuiet g' = true ↔
     Globals.veryQuiet g = true ∨ opt_very_quiet ∈ opts ∨ opt_brief ∈ opts) ∧
  (Globals.quiet g' = true ↔
     Globals.quiet g = true ∨
     opt_quiet ∈ opts ∨ opt_very_quiet ∈ opts ∨ opt_brief ∈ opts) ∧
  (Globals.noTable g' = true ↔
     Globals.noTable g = true ∨ opt_no_table ∈ opts ∨ opt_brief ∈ opts) ∧
  (Globals.plain g' = true ↔ Globals.plain g = true ∨ opt_plain ∈ opts) ∧
  (Globals.ascii_only g' = true ↔
     Globals.ascii_only g = true ∨ opt_ascii ∈ opts) ∧
  (Globals.noOffline g' = true ↔
     Globals.noOffline g = true ∨ opt_no_offline ∈ opts) ∧
  (Globals.noNoRemote g' = true ↔
     Globals.noNoRemote g = true ∨ opt_no_noremote ∈ opts) ∧
  (Globals.debug g' = true ↔ Globals.debug g = true ∨ opt_debug ∈ opts).
Proof.
  revert g. induction opts as [|o opts IH]; intros g Hl; simpl in Hl.
  - injection Hl as <-. repeat split; intros; try tauto;
      repeat match goal with
             | Hx : _ ∨ _ |- _ => destruct Hx as [Hx|Hx]
             | Hx : _ ∈ [] |- _ => inversion Hx
             end; assumption.
  - destruct (on_option o g) as [g1|] eqn:Ho; [|discriminate].
    specialize (IH _ Hl).
    destruct IH as (I1 & I2 & I3 & I4 & I5 & I6 & I7 & I8 & I9).
    rewrite I1, I2, I3, I4, I5, I6, I7, I8, I9. clear I1 I2 I3 I4 I5 I6 I7 I8 I9 Hl.
    rewrite !elem_of_cons.
    destruct o; simpl in Ho; try discriminate;
      try (destruct (sscanf_u _); [|discriminate]);
      try (destruct (sscanf_hu _); [|discriminate]);
      try (repeat (case_bool_decide; simpl in Ho; try discriminate));
      injection Ho as Hg; subst g1; simpl;
      repeat split; intros Hx; split_cases Hx.
Qed.

Lemma flags_brief `{Scanf} tty opts g :
  options_loop opts (defaults tty) = Proceed g →
  Globals.brief g = true ↔ opt_brief ∈ opts.
Proof.
  intros Hl. apply options_loop_flags in Hl. destruct Hl as (I1 & _).
  rewrite I1. simpl. split; intros Hx; split_cases Hx.
Qed.

(** X20. When the option loop is left, a flag is set exactly when its own
    option was given, or one that implies it: [-b] implies [-Q] and
    [-T], and [-Q] implies [-q].  Order and repetition of the options
    make no difference, and no option takes a flag back. *)
Theorem flags_follow_options `{Scanf}
    (tty : bool) (opts : list OptRes) (g : Globals.t) :
  options_loop opts (defaults tty) = Proceed g →
  (Globals.brief g = true ↔ opt_brief ∈ opts) ∧
  (Globals.veryQuiet g = true ↔ opt_very_quiet ∈ opts ∨ opt_brief ∈ opts) ∧
  (Globals.quiet g = true ↔
     opt_quiet ∈ opts ∨ opt_very_quiet ∈ opts ∨ opt_brief ∈ opts) ∧
  (Globals.noTable g = true ↔ opt_no_table ∈ opts ∨ opt_brief ∈ opts) ∧
  (Globals.plain g = true ↔ opt_plain ∈ opts) ∧
  (Globals.ascii_only g = true ↔ opt_ascii ∈ opts) ∧
  (Globals.noOffline g = true ↔ opt_no_offline ∈ opts) ∧
  (Globals.noNoRemote g = true ↔ opt_no_noremote ∈ opts) ∧
  (Globals.debug g = true ↔ opt_debug ∈ opts).
Proof.
  intros Hl. apply options_loop_flags in Hl. simpl in Hl.
  destruct Hl as (I1 & I2 & I3 & I4 & I5 & I6 & I7 & I8 & I9).
  rewrite I1, I2, I3, I4, I5, I6, I7, I8, I9.
  repeat split; intros Hx; split_cases Hx.
Qed.

Lemma flags_follow_options_witness :
  let opts := [opt_very_quiet; opt_timeout (lit "500"); opt_no_table] in
  let g := Globals.mk [] 500 [] 0 true true false true false false
             false false false true in
  (Globals.brief g = true ↔ opt_brief ∈ opts) ∧
  (Globals.veryQuiet g = true ↔ opt_very_quiet ∈ opts ∨ opt_brief ∈ opts) ∧
  (Globals.quiet g = true ↔
     opt_quiet ∈ opts ∨ opt_very_quiet ∈ opts ∨ opt_brief ∈ opts) ∧
  (Globals.noTable g = true ↔ opt_no_table ∈ opts ∨ opt_brief ∈ opts) ∧
  (Globals.plain g = true ↔ opt_plain ∈ opts) ∧
  (Globals.ascii_only g = true ↔ opt_ascii ∈ opts) ∧
  (Globals.noOffline g = true ↔ opt_no_offline ∈ opts) ∧
  (Globals.noNoRemote g = true ↔ opt_no_noremote ∈ opts) ∧
  (Globals.debug g = true ↔ opt_debug ∈ opts).
Proof.
  intros opts g.
  apply (flags_follow_options (H := decimalScanf) true opts g).
  vm_compute. reflexivity.
Defined.

(** X21. [--color=auto] changes nothing, wherever it stands: it does not
    bring back the setting found at the start, so that after
    [--color=never] the messages stay without colour. *)
Theorem color_auto_changes_nothing `{Scanf}
    (before after : list OptRes) (g : Globals.t) :
  options_loop (before ++ opt_color (lit "auto") :: after) g
  = options_loop (before ++ after) g.
Proof.
  rewrite !options_loop_app.
  destruct (options_loop before g) as [g'|]; [|reflexivity].
  reflexivity.
Qed.

(** X22. The options are read from left to right and [-h], [-v] end the
    run where they stand, whatever follows: [-h] with exit code 1 and
    nothing on [stdout], [-v] with exit code 0 and the version text. *)
Theorem help_and_version_end_the_run `{Scanf}
    (before after : list OptRes) (g g' : Globals.t) :
  options_loop before g = Proceed g' →
  options_loop (before ++ opt_help :: after) g = Stop 1 [] ∧
  options_loop (before ++ opt_version :: after) g = Stop 0 VersionStr.
Proof.
  intros Hb. rewrite !options_loop_app, Hb. split; reflexivity.
Qed.

Lemma help_and_version_end_the_run_witness :
  options_loop (H := decimalScanf) ([opt_brief] ++ opt_help :: [opt_unknown])
    (defaults false) = Stop 1 [] ∧
  options_loop (H := decimalScanf) ([opt_brief] ++ opt_version :: [opt_unknown])
    (defaults false) = Stop 0 VersionStr.
Proof.
  apply (help_and_version_end_the_run (H := decimalScanf) [opt_brief] [opt_unknown]
           (defaults false)
           (Globals.mk [] 2000 [] 0 true true true true false false
              false false false false)).
  vm_compute. reflexivity.
Defined.

(** ** Finding the scheduler *)

Lemma discover_loop_retried timeout start pre rest :
  Forall (retried timeout start) pre →
  discover_loop timeout (getTimestamp start) (pre ++ rest)
  = discover_loop timeout (getTimestamp start) rest.
Proof.
  induction 1 as [|a pre (Ht & Hc & Hn) _ IH]; [reflexivity|].
  simpl. rewrite Ht, Hc. simpl.
  destruct (Z.leb_spec (getTimestamp (now a) - getTimestamp start) timeout);
    [exact IH | lia].
Qed.

Lemma discover_loop_left timeout start attempts channel :
  discover_loop timeout (getTimestamp start) attempts = LoopLeft channel →
  ∃ pre a rest,
    attempts = pre ++ a :: rest ∧ Forall (retried timeout start) pre ∧
    timed_out a = false ∧ got_channel a = channel ∧
    (channel = true ∨
     (timeout < getTimestamp (now a) - getTimestamp start)%Z).
Proof.
  induction attempts as [|a attempts IH]; simpl; [discriminate|].
  destruct (timed_out a) eqn:Ht; [discriminate|].
  destruct (got_channel a) eqn:Hc; simpl.
  - intros [= <-]. exists [], a, attempts. repeat split; auto.
  - destruct (Z.leb_spec (getTimestamp (now a) - getTimestamp start) timeout).
    + intros Hl. destruct (IH Hl) as (pre & b & rest & -> & Hpre & Hb).
      exists (a :: pre), b, rest. split; [reflexivity|]. split; [|exact Hb].
      constructor; [|exact Hpre]. repeat split; assumption.
    + intros [= <-]. exists [], a, attempts. repeat split; auto.
Qed.

(** X23. The scheduler is linked exactly when some attempt yields a
    channel, every attempt before it came back empty-handed within the
    time allowed, the discoverer reports no time-out (neither in the loop
    nor at the second look), and the login is accepted. *)
Theorem connect_linked_iff
    (timeout : Z) (start : timespec) (attempts : list Attempt) (late login : bool) :
  connect timeout start attempts late login = Linked ↔
  ∃ pre a rest,
    attempts = pre ++ a :: rest ∧ Forall (retried timeout start) pre ∧
    timed_out a = false ∧ got_channel a = true ∧
    late = false ∧ login = true.
Proof.
  unfold connect. split.
  - destruct (discover_loop _ _ attempts) as [channel| |] eqn:Hl; try discriminate.
    destruct late; [discriminate|]. destruct channel; [|discriminate].
    destruct login; [|discriminate]. intros _.
    destruct (discover_loop_left _ _ _ _ Hl) as (pre & a & rest & He & Hp & Ht & Hc & _).
    exists pre, a, rest. repeat split; assumption || reflexivity.
  - intros (pre & a & rest & -> & Hp & Ht & Hc & -> & ->).
    rewrite (discover_loop_retried _ _ _ _ Hp). simpl. rewrite Ht, Hc. reflexivity.
Qed.

(** X24. Once an attempt without a channel ends after the time allowed,
    the run ends with exit code 2: no further attempt is made and the
    login is not tried. *)
Theorem connect_deadline
    (timeout : Z) (start : timespec) (pre : list Attempt) (a : Attempt)
    (rest : list Attempt) (late login : bool) :
  Forall (retried timeout start) pre →
  got_channel a = false →
  (timeout < getTimestamp (now a) - getTimestamp start)%Z →
  connect timeout start (pre ++ a :: rest) late login = Refused 2.
Proof.
  intros Hp Hc Hn. unfold connect.
  rewrite (discover_loop_retried _ _ _ _ Hp). simpl. rewrite Hc. simpl.
  destruct (timed_out a); [reflexivity|].
  destruct (Z.leb_spec (getTimestamp (now a) - getTimestamp start) timeout); [lia|].
  destruct late; reflexivity.
Qed.

Lemma connect_deadline_witness :
  connect 2000 (mkTimespec 100 0)
    ([mkAttempt false false (mkTimespec 101 0)] ++
     mkAttempt false false (mkTimespec 102 1000000) ::
     [mkAttempt true false (mkTimespec 102 2000000)]) false true
  = Refused 2.
Proof.
  apply (connect_deadline 2000 (mkTimespec 100 0)
           [mkAttempt false false (mkTimespec 101 0)]
           (mkAttempt false false (mkTimespec 102 1000000))
           [mkAttempt true false (mkTimespec 102 2000000)] false true).
  - repeat constructor. vm_compute. discriminate.
  - reflexivity.
  - vm_compute. reflexivity.
Defined.

Lemma connect_code timeout start attempts late login code :
  connect timeout start attempts late login = Refused code →
  code = EXIT_CONNECTION_ERR.
Proof.
  unfold connect.
  destruct (discover_loop _ _ attempts) as [channel|c|] eqn:Hl; try discriminate.
  - destruct late; [intros [= <-]; reflexivity|].
    destruct channel; simpl; [|intros [= <-]; reflexivity].
    destruct login; simpl; [discriminate | intros [= <-]; reflexivity].
  - intros [= <-]. clear late login.
    induction attempts as [|a attempts IH]; simpl in Hl; [discriminate|].
    destruct (timed_out a); [injection Hl as <-; reflexivity|].
    destruct (_ && _); [auto | discriminate].
Qed.

(** ** The program as a whole *)

(** X25. With [-b] on the command line a run that ends with exit code 0
    prints one line: the core count of the records collected, or, when
    [-v] stands among the options, the version text. *)
Theorem brief_prints_the_core_count `{TextShaping} `{Scanf}
    (w : World) (out : list ascii) :
  opt_brief ∈ opts w →
  icequery w = Exited EXIT_OK out →
  out = VersionStr ∨
  ∃ nodes, poll_loop startPolling (polls w) = Finished nodes ∧
           out = to_string (coreCount nodes) ++ [LF].
Proof.
  intros Hb. unfold icequery.
  destruct (options_loop (opts w) (defaults (tty w))) as [g|code o] eqn:Ho.
  - destruct (connect _ _ _ _ _) as [|code|] eqn:Hc; try discriminate.
    + apply flags_brief in Ho. apply Ho in Hb.
      unfold main. destruct (poll_loop startPolling (polls w)) as [st|ns|c|e|] eqn:Hp;
        try discriminate.
      * unfold report, config_of. simpl. rewrite Hb.
        destruct (_ || _); [discriminate|].
        intros [= <-]. right. exists ns. auto.
      * apply poll_loop_code in Hp. subst c. discriminate.
    + apply connect_code in Hc. subst code. discriminate.
  - intros [= -> ->]. apply options_loop_stop in Ho as [[_ ->]|[? _]];
      [left; reflexivity | discriminate].
Qed.

Lemma brief_prints_the_core_count_witness :
  lit "8" ++ [LF] = VersionStr ∨
  ∃ nodes, poll_loop startPolling (polls brief_run) = Finished nodes ∧
           lit "8" ++ [LF] = to_string (coreCount nodes) ++ [LF].
Proof.
  apply (brief_prints_the_core_count (H := plainShaping) (H0 := decimalScanf)
           brief_run (lit "8" ++ [LF])).
  - simpl. apply list_elem_of_here.
  - vm_compute. reflexivity.
Defined.

Lemma main_code `{TextShaping} cfg polls code out :
  main cfg polls = Exited code out →
  code = EXIT_OK ∨ code = EXIT_CONNECTION_ERR ∨ code = EXIT_NO_DATA.
Proof.
  unfold main. destruct (poll_loop startPolling polls) as [st|ns|c|e|] eqn:Hp;
    try discriminate.
  - destruct (empty_nodes ns || forallb (filtered_out cfg) ns) eqn:Hc.
    + unfold report. rewrite Hc. intros [= <- <-]. auto.
    + destruct (report_ok cfg ns Hc) as (out' & -> & _). intros [= <- <-]. auto.
  - intros [= <- <-]. apply poll_loop_code in Hp. auto.
Qed.

(** X26. Exit code 1 comes from the command line alone: a run ends with
    it exactly when the option loop ends the run with it ([-h], an
    unknown option, an argument missing or not accepted), and then
    nothing is printed on [stdout]. *)
Theorem exit_code_one_is_the_command_line `{TextShaping} `{Scanf}
    (w : World) (out : list ascii) :
  icequery w = Exited EXIT_INVALID_ARGS out ↔
  options_loop (opts w) (defaults (tty w)) = Stop EXIT_INVALID_ARGS [] ∧ out = [].
Proof.
  unfold icequery. split.
  - destruct (options_loop (opts w) (defaults (tty w))) as [g|code o] eqn:Ho.
    + destruct (connect _ _ _ _ _) as [|code|] eqn:Hc; try discriminate.
      * intros Hm. apply main_code in Hm as [Hm|[Hm|Hm]]; discriminate.
      * apply connect_code in Hc. subst code. discriminate.
    + intros [= -> ->]. apply options_loop_stop in Ho as [[? _]|[_ ->]];
        [discriminate | auto].
  - intros [-> ->]. reflexivity.
Qed.
